(** * Sequential SAR change detection (sar_seq_sav.py): a shallow embedding

    The first part embeds the script, the second part states and proves
    its properties.

    - [Int8]      : the cells of the [np.byte] maps (signed 8-bit, wrapping);
    - [F64]       : the comparison [pv <= significance] on binary64 values;
    - [Synth]     : the change-map loops of [main] (lines 267-282), at the
                    level of the numpy arrays, what they do to one pixel,
                    and the traversal as section 4.4 of the specification
                    words it;
    - [Cache]     : the loop that fills [pvarray] (lines 255-264);
    - [Engine]    : [getmat] and [PV] (lines 45-160) over exact reals, with
                    the numpy arrays of the accumulators kept in a store,
                    because [k += k1] and [k -= k1] update them in place;
    - [Clamping]  : lines 144-152 on binary64 values, NaN and infinities
                    included;
    - [Driver]    : the control flow of [main]. *)

From Stdlib Require Import ZArith List Lia Bool Floats Reals Lra String.
From stdpp Require Import base numbers option list gmap.

Local Open Scope Z_scope.

(* ===================================================================== *)
(** ** Signed 8-bit cells *)
(* ===================================================================== *)

Module Int8.

(** Storing a Python integer into an array of dtype [np.byte] keeps the
    low eight bits, read as a two's complement number. *)
Definition wrap8 (z : Z) : Z := (z + 128) mod 256 - 128.

(** The same eight bits read as an unsigned byte (what a [GDT_Byte] band
    holds once the array is written). *)
Definition to_uint8 (z : Z) : Z := z mod 256.

End Int8.

(* ===================================================================== *)
(** ** binary64 comparisons *)
(* ===================================================================== *)

Module F64.

(** [x <= y] on float64, false as soon as one side is NaN. *)
Definition le (x y : float) : bool := PrimFloat.leb x y.

(** The order of two positive finite values, by exponent then mantissa. *)
Definition lex_le (e1 : Z) (m1 : positive) (e2 : Z) (m2 : positive) : Prop :=
  e1 < e2 \/ (e1 = e2 /\ (m1 <= m2)%positive).

End F64.

(* ===================================================================== *)
(** ** The change-map loops of [main] *)
(* ===================================================================== *)

Module Synth.
Import Int8.

(** [pvarray] is the memory-mapped array of shape [(k-1, k-1, rows*cols)]:
    [pvarray ell j i] is the p-value of pixel [i] in entry [(ell, j)]. *)
Definition pvarray := nat -> nat -> nat -> float.

(** The four maps, flattened as in lines 267-273: three arrays of
    [rows*cols] signed bytes and one of shape [(rows*cols, k-1)]. *)
Record maps := Maps {
  cmap : list Z;
  smap : list Z;
  fmap : list Z;
  bmap : list (list Z)
}.

(** [pvarray[ell,j,:]] for a raster of [npix] pixels. *)
Definition pv_slice (pva : pvarray) (ell j npix : nat) : list float :=
  map (pva ell j) (seq 0 npix).

(** [np.where(mask)] on a one-dimensional boolean array: the positions
    that hold [True], in increasing order. *)
Fixpoint where_from (i : nat) (mask : list bool) : list nat :=
  match mask with
  | [] => []
  | b :: mask' =>
      if b then i :: where_from (S i) mask' else where_from (S i) mask'
  end.

Definition np_where (mask : list bool) : list nat := where_from 0 mask.

(** [(pv <= significance) & (cmap == c)] *)
Definition hit_mask (significance : float) (pv : list float)
           (cm : list Z) (c : Z) : list bool :=
  zip_with andb (map (fun x => F64.le x significance) pv)
                (map (fun v => Z.eqb v c) cm).

(** [a[idx] = g]: the cells listed in [idx] receive [g i]; the right-hand
    sides are computed before the first store. *)
Definition scatter {A} (g : nat -> A) (idx : list nat) (a : list A) : list A :=
  foldl (fun acc i => <[i := g i]> acc) a idx.

(** Body of the inner loop, lines 276-282. *)
Definition synth_step (significance : float) (pva : pvarray) (npix : nat)
           (ell j : nat) (m : maps) : maps :=
  let pv := pv_slice pva ell j npix in
  let idx := np_where (hit_mask significance pv (cmap m) (Z.of_nat ell)) in
  let idx1 := np_where (hit_mask significance pv (cmap m) 0) in
  let fmap' := scatter (fun i => wrap8 (fmap m !!! i + 1)) idx (fmap m) in
  let cmap' := scatter (fun _ => wrap8 (Z.of_nat j + 1)) idx (cmap m) in
  let bmap' := scatter (fun i => <[j := wrap8 255]> (bmap m !!! i)) idx (bmap m) in
  let smap' := scatter (fun _ => wrap8 (Z.of_nat j + 1)) idx1 (smap m) in
  Maps cmap' smap' fmap' bmap'.

(** [range(a, b)] *)
Definition range (a b : nat) : list nat := seq a (b - a).

(** Lines 267-273: [np.zeros]. *)
Definition zero_maps (k npix : nat) : maps :=
  Maps (replicate npix 0) (replicate npix 0) (replicate npix 0)
       (replicate npix (replicate (k - 1) 0)).

(** [for j in range(ell,k-1): ...] *)
Definition synth_row (significance : float) (pva : pvarray) (npix k : nat)
           (ell : nat) (m : maps) : maps :=
  foldl (fun m j => synth_step significance pva npix ell j m) m
        (range ell (k - 1)).

(** Lines 267-282 for a stack of [k] images. *)
Definition synth (significance : float) (pva : pvarray) (npix k : nat) : maps :=
  foldl (fun m ell => synth_row significance pva npix k ell m)
        (zero_maps k npix) (range 0 (k - 1)).

(** The maps when the outer loop reaches [ell]. *)
Definition synth_before (significance : float) (pva : pvarray) (npix k : nat)
           (ell : nat) : maps :=
  foldl (fun m l => synth_row significance pva npix k l m)
        (zero_maps k npix) (range 0 ell).

(** *** One pixel of the arrays *)

Record pixel := Pixel {
  pc : Z;          (* its cell of cmap *)
  ps : Z;          (* its cell of smap *)
  pf : Z;          (* its cell of fmap *)
  pb : list Z      (* its row of bmap *)
}.

Definition pixel_of (m : maps) (i : nat) : pixel :=
  Pixel (cmap m !!! i) (smap m !!! i) (fmap m !!! i) (bmap m !!! i).

(** The p-values of one pixel. *)
Definition pvs := nat -> nat -> float.
Definition pvs_of (pva : pvarray) (i : nat) : pvs := fun ell j => pva ell j i.

(** Whether the pixel is selected by [idx] at [(ell, j)]. *)
Definition pix_hit (significance : float) (pv : pvs) (ell j : nat)
           (x : pixel) : bool :=
  F64.le (pv ell j) significance && (pc x =? Z.of_nat ell).

Definition pix_first (significance : float) (pv : pvs) (ell j : nat)
           (x : pixel) : bool :=
  F64.le (pv ell j) significance && (pc x =? 0).

(** What [synth_step] does to the cells of one pixel. *)
Definition pix_step (significance : float) (pv : pvs) (ell j : nat)
           (x : pixel) : pixel :=
  let hit := pix_hit significance pv ell j x in
  let first := pix_first significance pv ell j x in
  Pixel (if hit then wrap8 (Z.of_nat j + 1) else pc x)
        (if first then wrap8 (Z.of_nat j + 1) else ps x)
        (if hit then wrap8 (pf x + 1) else pf x)
        (if hit then <[j := wrap8 255]> (pb x) else pb x).

Definition pix_row (significance : float) (pv : pvs) (k ell : nat)
           (x : pixel) : pixel :=
  foldl (fun x j => pix_step significance pv ell j x) x (range ell (k - 1)).

Definition zero_pixel (k : nat) : pixel := Pixel 0 0 0 (replicate (k - 1) 0).

Definition pix_synth (significance : float) (pv : pvs) (k : nat) : pixel :=
  foldl (fun x ell => pix_row significance pv k ell x)
        (zero_pixel k) (range 0 (k - 1)).

(** Number of times [fmap] is incremented for the pixel while the inner
    loop runs over [js] with the outer index at [ell]. *)
Fixpoint row_increments (significance : float) (pv : pvs) (ell : nat)
         (js : list nat) (x : pixel) : nat :=
  match js with
  | [] => 0
  | j :: js' =>
      ((if pix_hit significance pv ell j x then 1 else 0)
       + row_increments significance pv ell js'
           (pix_step significance pv ell j x))%nat
  end.

(** The pixel's state when the outer loop reaches [ell]. *)
Definition pix_before (significance : float) (pv : pvs) (k ell : nat) : pixel :=
  foldl (fun x l => pix_row significance pv k l x)
        (zero_pixel k) (range 0 ell).

(** *** The traversal as the specification words it

    Section 4.4: integers without a width, one pixel at a time. *)
Module Spec.

Record state := State {
  s_cmap : Z;
  s_smap : Z;
  s_fmap : Z;
  s_bmap : list Z
}.

Definition step (significance : float) (pv : pvs) (ell j : nat)
           (s : state) : state :=
  let hit := F64.le (pv ell j) significance && (s_cmap s =? Z.of_nat ell) in
  let firstHit := F64.le (pv ell j) significance && (s_cmap s =? 0) in
  State (if hit then Z.of_nat j + 1 else s_cmap s)
        (if firstHit then Z.of_nat j + 1 else s_smap s)
        (if hit then s_fmap s + 1 else s_fmap s)
        (if hit then <[j := 255]> (s_bmap s) else s_bmap s).

Definition run (significance : float) (pv : pvs) (k : nat) : state :=
  foldl (fun s ell =>
           foldl (fun s j => step significance pv ell j s) s
                 (range ell (k - 1)))
        (State 0 0 0 (replicate (k - 1) 0)) (range 0 (k - 1)).

End Spec.

(** *** Counting marked pixels *)

Definition marked (v : Z) : bool := negb (v =? 0).

Definition count_marked (a : list Z) : nat := length (filter (fun v => marked v = true) a).

(** Pixels marked in layer [j] of the bitemporal map. *)
Definition layer (b : list (list Z)) (j : nat) : list Z :=
  map (fun row => row !!! j) b.

(** Pixels marked in at least one layer. *)
Definition any_layer (b : list (list Z)) : list Z :=
  map (fun row => if existsb marked row then 1 else 0) b.

End Synth.

(* ===================================================================== *)
(** ** Invariants of the change-map loops *)
(* ===================================================================== *)

Module SynthInvariants.
Import Int8 Synth.

(** The arrays keep the shape they were allocated with. *)
Definition shaped (npix : nat) (m : maps) : Prop :=
  length (cmap m) = npix /\ length (smap m) = npix /\
  length (fmap m) = npix /\ length (bmap m) = npix.

(** What holds of a pixel throughout the traversal, for stacks of at most
    256 images ([K = k - 1 <= 255]). *)
Definition Base (K : nat) (x : pixel) : Prop :=
  length (pb x) = K /\
  -128 <= pf x <= 127 /\
  (pc x = 0 -> pf x = 0 /\ existsb marked (pb x) = false) /\
  (pc x <> 0 -> ps x <> 0 /\ existsb marked (pb x) = true /\ 1 <= to_uint8 (pf x)).

(** ... while the outer loop is at [ell] ... *)
Definition Inv (K ell : nat) (x : pixel) : Prop :=
  Base K x /\
  to_uint8 (pf x) <= Z.of_nat ell + (if pc x =? Z.of_nat ell then 0 else 1).

(** ... and once [n] rows are complete. *)
Definition Done (K n : nat) (x : pixel) : Prop :=
  Base K x /\ to_uint8 (pf x) <= Z.of_nat n.

(** The cells of a pixel hold what the specification's traversal holds;
    the bytes of its [bmap] row are read unsigned. *)
Definition agrees (x : pixel) (s : Spec.state) : Prop :=
  pc x = Spec.s_cmap s /\ ps x = Spec.s_smap s /\ pf x = Spec.s_fmap s /\
  to_uint8 <$> pb x = Spec.s_bmap s.

(** A pixel latched, or with a first change, in one run is so in the
    other. *)
Definition follows (x1 x2 : pixel) : Prop :=
  (pc x1 <> 0 -> pc x2 <> 0) /\ (ps x1 <> 0 -> ps x2 <> 0).

End SynthInvariants.

(* ===================================================================== *)
(** ** Filling [pvarray] *)
(* ===================================================================== *)

Module Cache.
Import Synth.

(** A flattened raster of p-values, [pv.ravel()]. *)
Definition raster := nat -> float.

(** The entries of the memory map that have been written, by index pair.
    The file behind [np.memmap(..., mode='w+')] starts filled with zeros. *)
Abbreviation store := (gmap (nat * nat) raster).

Section Populate.

Context {fname : Type}.

(** [PV(., n, p, cols, rows, bands)] for the run's fixed parameters, and
    [ndimage.filters.median_filter(., size=(3,3))]. *)
Variable PV : list fname -> raster.
Variable median_filter : raster -> raster.

(** [fns[a:b]] *)
Definition slice (fns : list fname) (a b : nat) : list fname :=
  take (b - a) (drop a fns).

(** Lines 257-264. *)
Definition populate (medianfilter : bool) (fns : list fname) : store :=
  let k := length fns in
  foldl (fun st i =>
           foldl (fun st j =>
                    let pv := PV (slice fns i (j + 2)) in
                    let pv := if medianfilter then median_filter pv else pv in
                    <[(i, j) := pv]> st)
                 st (range i (k - 1)))
        ∅ (range 0 (k - 1)).

End Populate.

(** [pvarray[ell,j,i]] as the synthesis loops read it back. *)
Definition read (st : store) : pvarray :=
  fun ell j i =>
    match st !! (ell, j) with
    | Some r => r i
    | None => 0%float
    end.

End Cache.

(* ===================================================================== *)
(** ** The test statistic: [getmat] and [PV] *)
(* ===================================================================== *)

Module Engine.
Local Open Scope R_scope.

(** *** complex128 *)

Record complex := Cx { re : R; im : R }.

Definition Cof (x : R) : complex := Cx x 0.
Definition Cadd (x y : complex) : complex := Cx (re x + re y) (im x + im y).
Definition Csub (x y : complex) : complex := Cx (re x - re y) (im x - im y).
Definition Cmul (x y : complex) : complex :=
  Cx (re x * re y - im x * im y) (re x * im y + im x * re y).
Definition Cconj (x : complex) : complex := Cx (re x) (- im x).
Definition Cabs (x : complex) : R := sqrt (re x * re x + im x * im x).

(** *** numpy arrays and the Python values bound to them

    A raster read with [ReadAsArray(0,0,cols,rows)] is a plane of
    [rows*cols] numbers; all planes of a run share that shape, so a plane
    is given by its value at each pixel.  Arithmetic is exact: the
    rounding of float64 is not modelled here. *)

Definition plane := nat -> R.
Definition cplane := nat -> complex.

Inductive ndarray :=
| Real (u : plane)        (* dtype float64 *)
| Cplx (u : cplane).      (* dtype complex128 *)

(** Arrays are objects: [k += k1] changes the array [k] is bound to, and
    every other name bound to the same array sees the change. *)
Record heap := Heap { next : nat; cells : gmap nat ndarray }.

Inductive pyval :=
| PyFloat (c : R)         (* an immutable Python float *)
| PyRef (l : nat).        (* a reference to an array of the heap *)

(** Computations that read and write the heap and may raise. *)
Definition M (A : Type) : Type := heap -> option (A * heap).

Definition ret {A} (x : A) : M A := fun h => Some (x, h).
Definition raise {A} : M A := fun _ => None.
Definition bind {A B} (m : M A) (f : A -> M B) : M B :=
  fun h => match m h with
           | Some (x, h') => f x h'
           | None => None
           end.

Notation "'let!' x ':=' m 'in' f" := (bind m (fun x => f))
  (at level 10, x name, m at level 100, f at level 200, only parsing).

(** A new array object. *)
Definition alloc (x : ndarray) : M pyval :=
  fun h => Some (PyRef (next h), Heap (S (next h)) (<[next h := x]> (cells h))).

Definition scalar (c : R) : ndarray := Real (fun _ => c).

Definition is_cplx (x : ndarray) : bool :=
  match x with Cplx _ => true | Real _ => false end.

(** Elementwise binary operation with numpy's type promotion. *)
Definition nd_binop (fr : R -> R -> R) (fc : complex -> complex -> complex)
           (x y : ndarray) : ndarray :=
  match x, y with
  | Real u, Real v => Real (fun i => fr (u i) (v i))
  | Real u, Cplx v => Cplx (fun i => fc (Cof (u i)) (v i))
  | Cplx u, Real v => Cplx (fun i => fc (u i) (Cof (v i)))
  | Cplx u, Cplx v => Cplx (fun i => fc (u i) (v i))
  end.

(** [v op= x].  On a Python float this is [v = v op x], a new array; on an
    array it is the in-place ufunc, which refuses to store complex values
    into a float64 array. *)
Definition py_inplace (fr : R -> R -> R) (fc : complex -> complex -> complex)
           (v : pyval) (x : ndarray) : M pyval :=
  match v with
  | PyFloat c => alloc (nd_binop fr fc (scalar c) x)
  | PyRef l =>
      fun h =>
        match cells h !! l with
        | Some y =>
            if is_cplx x && negb (is_cplx y) then None
            else Some (PyRef l,
                       Heap (next h) (<[l := nd_binop fr fc y x]> (cells h)))
        | None => None
        end
  end.

Definition iadd : pyval -> ndarray -> M pyval := py_inplace Rplus Cadd.
Definition isub : pyval -> ndarray -> M pyval := py_inplace Rminus Csub.

(** The array a value stands for in an expression. *)
Definition deref (v : pyval) : M ndarray :=
  match v with
  | PyFloat c => ret (scalar c)
  | PyRef l => fun h => match cells h !! l with
                        | Some x => Some (x, h)
                        | None => None
                        end
  end.

(** Operands of the determinant formulas.  [k], [xsi], [zeta] only ever
    receive float64 arrays and [a], [rho], [b] complex128 ones, so the
    [raise] below is never reached from [PV]. *)
Definition real_operand (v : pyval) : M plane :=
  let! x := deref v in
  match x with Real u => ret u | Cplx _ => raise end.

Definition cplx_operand (v : pyval) : M cplane :=
  let! x := deref v in
  match x with Real u => ret (fun i => Cof (u i)) | Cplx u => ret u end.

(** *** [getmat], lines 45-102 *)

(** The bands of one raster file. *)
Definition file := list plane.

Inductive result :=
| T9 (k1 : plane) (a1 rho1 : cplane) (xsi1 : plane) (b1 : cplane) (zeta1 : plane)
| T4 (k1 : plane) (a1 : cplane) (xsi1 : plane)
| T1 (k1 : plane).

(** [inDataset1.GetRasterBand(i).ReadAsArray(0,0,cols,rows)] *)
Definition band (fn : file) (i : nat) : option plane := fn !! (i - 1)%nat.

(** [(b + 1j*im)] *)
Definition mkcplx (b im_ : plane) : cplane := fun i => Cx (b i) (im_ i).

(** [None] stands for the [except] branch: message and [sys.exit(1)]. *)
Definition getmat (fn : file) (bands : nat) : option result :=
  match bands with
  | 9%nat =>
      k1 ← band fn 1; a1 ← band fn 2; im1 ← band fn 3;
      rho1 ← band fn 4; im2 ← band fn 5; xsi1 ← band fn 6;
      b1 ← band fn 7; im3 ← band fn 8; zeta1 ← band fn 9;
      Some (T9 k1 (mkcplx a1 im1) (mkcplx rho1 im2) xsi1 (mkcplx b1 im3) zeta1)
  | 4%nat =>
      k1 ← band fn 1; a1 ← band fn 2; im1 ← band fn 3; xsi1 ← band fn 4;
      Some (T4 k1 (mkcplx a1 im1) xsi1)
  | 1%nat =>
      k1 ← band fn 1; Some (T1 k1)
  | _ => None
  end.

(** *** [PV], lines 104-160 *)

(** [n*np.float64(.)] and [n*np.complex128(.)] *)
Definition scale (n : R) (u : plane) : plane := fun i => n * u i.
Definition cscale (n : R) (u : cplane) : cplane :=
  fun i => Cx (n * re (u i)) (n * im (u i)).

(** The six accumulators of line 108. *)
Record accs := Accs {
  k : pyval; a : pyval; rho : pyval; xsi : pyval; b : pyval; zeta : pyval
}.

(** [result[0]] *)
Definition first_of (r : result) : plane :=
  match r with T9 k1 _ _ _ _ _ => k1 | T4 k1 _ _ => k1 | T1 k1 => k1 end.

(** Body of the loop of lines 109-128.  The second component carries the
    scaled arrays [k1], [a1], ... of the iteration, which the code reads
    again after the loop. *)
Definition accumulate (n : R) (p bands : nat) (st : accs * option result)
           (fn : file) : M (accs * option result) :=
  let ac := fst st in
  match getmat fn bands with
  | None => raise
  | Some r =>
      match p with
      | 3%nat =>
          match r with
          | T9 k1 a1 rho1 xsi1 b1 zeta1 =>
              let k1 := scale n k1 in
              let a1 := cscale n a1 in
              let rho1 := cscale n rho1 in
              let xsi1 := scale n xsi1 in
              let b1 := cscale n b1 in
              let zeta1 := scale n zeta1 in
              let! k' := iadd (k ac) (Real k1) in
              let! a' := iadd (a ac) (Cplx a1) in
              let! rho' := iadd (rho ac) (Cplx rho1) in
              let! xsi' := iadd (xsi ac) (Real xsi1) in
              let! b' := iadd (b ac) (Cplx b1) in
              let! zeta' := iadd (zeta ac) (Real zeta1) in
              ret (Accs k' a' rho' xsi' b' zeta',
                   Some (T9 k1 a1 rho1 xsi1 b1 zeta1))
          | _ => raise      (* tuple unpacking: wrong number of values *)
          end
      | 2%nat =>
          match r with
          | T4 k1 a1 xsi1 =>
              let k1 := scale n k1 in
              let a1 := cscale n a1 in
              let xsi1 := scale n xsi1 in
              let! k' := iadd (k ac) (Real k1) in
              let! a' := iadd (a ac) (Cplx a1) in
              let! xsi' := iadd (xsi ac) (Real xsi1) in
              ret (Accs k' a' (rho ac) xsi' (b ac) (zeta ac),
                   Some (T4 k1 a1 xsi1))
          | _ => raise
          end
      | 1%nat =>
          let k1 := scale n (first_of r) in
          let! k' := iadd (k ac) (Real k1) in
          ret (Accs k' (a ac) (rho ac) (xsi ac) (b ac) (zeta ac), Some (T1 k1))
      | _ => ret st
      end
  end.

Fixpoint accumulate_all (n : R) (p bands : nat) (fns : list file)
         (st : accs * option result) : M (accs * option result) :=
  match fns with
  | [] => ret st
  | fn :: fns' =>
      let! st' := accumulate n p bands st fn in
      accumulate_all n p bands fns' st'
  end.

(** Lines 130, 132, 133 and 135, 137, 138, at one pixel. *)
Definition det3 (k xsi zeta : R) (a b rho : complex) : R :=
  k * xsi * zeta + 2 * re (Cmul (Cmul a b) (Cconj rho))
  - xsi * (Cabs rho ^ 2) - k * (Cabs b ^ 2) - zeta * (Cabs a ^ 2).

Definition det2 (k xsi : R) (a : complex) : R := k * xsi - Cabs a ^ 2.

Definition det3_now (ac : accs) : M pyval :=
  let! vk := real_operand (k ac) in let! vxsi := real_operand (xsi ac) in
  let! vzeta := real_operand (zeta ac) in let! va := cplx_operand (a ac) in
  let! vb := cplx_operand (b ac) in let! vrho := cplx_operand (rho ac) in
  alloc (Real (fun i => det3 (vk i) (vxsi i) (vzeta i) (va i) (vb i) (vrho i))).

Definition det2_now (ac : accs) : M pyval :=
  let! vk := real_operand (k ac) in let! vxsi := real_operand (xsi ac) in
  let! va := cplx_operand (a ac) in
  alloc (Real (fun i => det2 (vk i) (vxsi i) (va i))).

(** Lines 129-143: the values bound to [detsumj], [detsumj1], [detj]. *)
Definition determinants (p : nat) (st : accs * option result)
  : M (pyval * pyval * pyval) :=
  let ac := fst st in
  match p with
  | 3%nat =>
      match snd st with
      | Some (T9 k1 a1 rho1 xsi1 b1 zeta1) =>
          let! detsumj := det3_now ac in
          let! k' := isub (k ac) (Real k1) in
          let! a' := isub (a ac) (Cplx a1) in
          let! rho' := isub (rho ac) (Cplx rho1) in
          let! xsi' := isub (xsi ac) (Real xsi1) in
          let! b' := isub (b ac) (Cplx b1) in
          let! zeta' := isub (zeta ac) (Real zeta1) in
          let! detsumj1 := det3_now (Accs k' a' rho' xsi' b' zeta') in
          let! detj := alloc (Real (fun i => det3 (k1 i) (xsi1 i) (zeta1 i)
                                             (a1 i) (b1 i) (rho1 i))) in
          ret (detsumj, detsumj1, detj)
      | _ => raise          (* [k1] is not bound *)
      end
  | 2%nat =>
      match snd st with
      | Some (T4 k1 a1 xsi1) =>
          let! detsumj := det2_now ac in
          let! k' := isub (k ac) (Real k1) in
          let! a' := isub (a ac) (Cplx a1) in
          let! xsi' := isub (xsi ac) (Real xsi1) in
          let! detsumj1 := det2_now (Accs k' a' (rho ac) xsi' (b ac) (zeta ac)) in
          let! detj := alloc (Real (fun i => det2 (k1 i) (xsi1 i) (a1 i))) in
          ret (detsumj, detsumj1, detj)
      | _ => raise
      end
  | 1%nat =>
      match snd st with
      | Some (T1 k1) =>
          let detsumj := k ac in                    (* detsumj = k *)
          let! k' := isub (k ac) (Real k1) in       (* k -= k1 *)
          let detsumj1 := k' in                     (* detsumj1 = k *)
          let! detj := alloc (Real k1) in           (* detj = k1 *)
          ret (detsumj, detsumj1, detj)
      | _ => raise
      end
  | _ => raise              (* [detsumj] is not bound *)
  end.

(** [sys.float_info.min], which the code names [eps]. *)
Definition eps : R := / 2 ^ 1022.

(** [np.nan_to_num]: exact reals hold neither NaN nor infinities. *)
Definition nan_to_num (x : R) : R := x.

(** [np.where(det <= eps, eps, det)] at one pixel. *)
Definition clamp (x : R) : R := if Rle_dec x eps then eps else x.

(** Lines 144-146, 147-149, 150-152. *)
Definition logdet (v : pyval) : M plane :=
  let! d := real_operand v in
  ret (fun i => ln (clamp (nan_to_num (d i)))).

(** Line 154. *)
Definition lnRj_of (n : R) (p : nat) (j : R)
           (logdetsumj logdetsumj1 logdetj : R) : R :=
  n * (INR p * (j * ln j - (j - 1) * ln (j - 1))
       + (j - 1) * logdetsumj1 + logdetj - j * logdetsumj).

(** Lines 155-157. *)
Definition f_of (p : nat) : R := INR p ^ 2.

Definition rhoj_of (n : R) (p : nat) (j : R) : R :=
  1 - (2 * INR p ^ 2 - 1) * (1 + 1 / (j * (j - 1))) / (6 * INR p * n).

Definition omega2j_of (n : R) (p : nat) (j : R) : R :=
  let rhoj := rhoj_of n p j in
  - (INR p * INR p / 4) * (1 - 1 / rhoj) ^ 2
  + (1 / (24 * n * n)) * INR p * INR p * (INR p * INR p - 1)
    * (1 + (2 * j - 1) / (j * (j - 1)) ^ 2) / rhoj ^ 2.

Section WithChi2.

(** [stats.chi2.cdf(x, df)] *)
Variable chi2_cdf : R -> R -> R.

(** Lines 159-160 at one pixel. *)
Definition pvalue (n : R) (p : nat) (j : R) (lnRj : R) : R :=
  let rhoj := rhoj_of n p j in
  let omega2j := omega2j_of n p j in
  let Z := -2 * rhoj * lnRj in
  1 - ((1 - omega2j) * chi2_cdf Z (f_of p)
       + omega2j * chi2_cdf Z (f_of p + 4)).

(** The raster of [lnRj], lines 106-154. *)
Definition lnRj_raster (fns : list file) (n : R) (p bands : nat) : M plane :=
  let j := INR (length fns) in
  let! st := accumulate_all n p bands fns
          (Accs (PyFloat 0) (PyFloat 0) (PyFloat 0)
                (PyFloat 0) (PyFloat 0) (PyFloat 0), None) in
  let! dets := determinants p st in
  let '(detsumj, detsumj1, detj) := dets in
  let! logdetsumj := logdet detsumj in
  let! logdetsumj1 := logdet detsumj1 in
  let! logdetj := logdet detj in
  ret (fun i => lnRj_of n p j (logdetsumj i) (logdetsumj1 i) (logdetj i)).

Definition PV (fns : list file) (n : R) (p bands : nat) : M plane :=
  let j := INR (length fns) in
  let! lnRj := lnRj_raster fns n p bands in
  ret (fun i => pvalue n p j (lnRj i)).

End WithChi2.

(** An empty heap to run [PV] from. *)
Definition empty_heap : heap := Heap 0 ∅.

(** *** Section 4.1 in its own words

    One Hermitian matrix per pixel, its sum over a run, the scaling by the
    number of looks, and the closed-form determinants. *)
Module Spec.

Record hermitian := Herm {
  h_k : R; h_a : complex; h_rho : complex;
  h_xsi : R; h_b : complex; h_zeta : R
}.

(** The matrix [getmat] returned, at pixel [i]; elements a dimension does
    not have are zero. *)
Definition at_pixel (r : result) (i : nat) : hermitian :=
  match r with
  | T9 k1 a1 rho1 xsi1 b1 zeta1 =>
      Herm (k1 i) (a1 i) (rho1 i) (xsi1 i) (b1 i) (zeta1 i)
  | T4 k1 a1 xsi1 => Herm (k1 i) (a1 i) (Cof 0) (xsi1 i) (Cof 0) 0
  | T1 k1 => Herm (k1 i) (Cof 0) (Cof 0) 0 (Cof 0) 0
  end.

Definition hzero : hermitian := Herm 0 (Cof 0) (Cof 0) 0 (Cof 0) 0.

Definition hadd (x y : hermitian) : hermitian :=
  Herm (h_k x + h_k y) (Cadd (h_a x) (h_a y)) (Cadd (h_rho x) (h_rho y))
       (h_xsi x + h_xsi y) (Cadd (h_b x) (h_b y)) (h_zeta x + h_zeta y).

Definition cmul_real (n : R) (z : complex) : complex := Cx (n * re z) (n * im z).

Definition hscale (n : R) (x : hermitian) : hermitian :=
  Herm (n * h_k x) (cmul_real n (h_a x)) (cmul_real n (h_rho x))
       (n * h_xsi x) (cmul_real n (h_b x)) (n * h_zeta x).

Definition hsum (xs : list hermitian) : hermitian := fold_right hadd hzero xs.

(** |z|^2 *)
Definition norm2 (z : complex) : R := re z * re z + im z * im z.

Definition det (p : nat) (x : hermitian) : R :=
  match p with
  | 1%nat => h_k x
  | 2%nat => h_k x * h_xsi x - norm2 (h_a x)
  | 3%nat =>
      h_k x * h_xsi x * h_zeta x
      + 2 * re (Cmul (Cmul (h_a x) (h_b x)) (Cconj (h_rho x)))
      - h_xsi x * norm2 (h_rho x) - h_k x * norm2 (h_b x)
      - h_zeta x * norm2 (h_a x)
  | _ => 0
  end.

(** Section 4.2, steps 2-5, given the three determinants at a pixel. *)
Definition lnR (n : R) (p : nat) (j : R) (detSum_j detSum_j1 det_last : R) : R :=
  n * (INR p * (j * ln j - (j - 1) * ln (j - 1))
       + (j - 1) * ln (clamp detSum_j1) + ln (clamp det_last)
       - j * ln (clamp detSum_j)).

Definition rho_ (n : R) (p : nat) (j : R) : R :=
  1 - (2 * INR p ^ 2 - 1) * (1 + 1 / (j * (j - 1))) / (6 * INR p * n).

Definition omega2 (n : R) (p : nat) (j : R) : R :=
  - (INR p ^ 2 / 4) * (1 - 1 / rho_ n p j) ^ 2
  + (INR p ^ 2 * (INR p ^ 2 - 1) * (1 + (2 * j - 1) / (j * (j - 1)) ^ 2))
    / (24 * n ^ 2 * rho_ n p j ^ 2).

Definition pv (chi2_cdf : R -> R -> R) (n : R) (p : nat) (j : R) (lnR_ : R) : R :=
  let Z := -2 * rho_ n p j * lnR_ in
  1 - ((1 - omega2 n p j) * chi2_cdf Z (INR p ^ 2)
       + omega2 n p j * chi2_cdf Z (INR p ^ 2 + 4)).

(** The statistic of a run of matrices [rs] at pixel [i]: the three
    determinants are those of [n] times the sum of all of them, of the sum
    of all but the last, and of the last alone. *)
Definition lnR_of_run (n : R) (p : nat) (rs : list result) (i : nat) : R :=
  let ms := map (fun r => hscale n (at_pixel r i)) rs in
  lnR n p (INR (length rs))
      (det p (hsum ms))
      (det p (hsum (removelast ms)))
      (det p (List.last ms hzero)).

End Spec.

End Engine.

(* ===================================================================== *)
(** ** The state of [PV] between its steps *)
(* ===================================================================== *)

Module EngineInvariants.
Import Engine Engine.Spec.
Local Open Scope R_scope.

(** Two arrays of one dtype with the same value at every pixel. *)
Definition nd_eq (x y : ndarray) : Prop :=
  match x, y with
  | Real u, Real v => forall i, u i = v i
  | Cplx u, Cplx v => forall i, u i = v i
  | _, _ => False
  end.

(** Location [l] of the heap holds an array equal to [s]. *)
Definition holds (h : heap) (l : nat) (s : ndarray) : Prop :=
  exists x, cells h !! l = Some x /\ nd_eq x s.

(** Where the accumulators live once the first iteration has allocated
    them, starting at location [l0]. *)
Definition refs (p l0 : nat) : accs :=
  match p with
  | 3%nat => Accs (PyRef l0) (PyRef (l0 + 1)) (PyRef (l0 + 2))
                  (PyRef (l0 + 3)) (PyRef (l0 + 4)) (PyRef (l0 + 5))
  | 2%nat => Accs (PyRef l0) (PyRef (l0 + 1)) (PyFloat 0)
                  (PyRef (l0 + 2)) (PyFloat 0) (PyFloat 0)
  | _ => Accs (PyRef l0) (PyFloat 0) (PyFloat 0) (PyFloat 0) (PyFloat 0) (PyFloat 0)
  end.

(** The heap holds, at every pixel [i], the elements of [X i]. *)
Definition Held (h : heap) (p l0 : nat) (X : nat -> hermitian) : Prop :=
  match p with
  | 3%nat =>
      (l0 + 6 <= next h)%nat /\
      holds h l0 (Real (fun i => h_k (X i))) /\
      holds h (l0 + 1) (Cplx (fun i => h_a (X i))) /\
      holds h (l0 + 2) (Cplx (fun i => h_rho (X i))) /\
      holds h (l0 + 3) (Real (fun i => h_xsi (X i))) /\
      holds h (l0 + 4) (Cplx (fun i => h_b (X i))) /\
      holds h (l0 + 5) (Real (fun i => h_zeta (X i)))
  | 2%nat =>
      (l0 + 3 <= next h)%nat /\
      holds h l0 (Real (fun i => h_k (X i))) /\
      holds h (l0 + 1) (Cplx (fun i => h_a (X i))) /\
      holds h (l0 + 2) (Real (fun i => h_xsi (X i)))
  | _ =>
      (l0 + 1 <= next h)%nat /\
      holds h l0 (Real (fun i => h_k (X i)))
  end.

(** The band layout [main] pairs with dimension [p]. *)
Definition bands_of (p : nat) : nat := (p * p)%nat.

(** The scaled result an iteration leaves in [k1], [a1], ... *)
Definition scaled (n : R) (p : nat) (r : result) : result :=
  match p, r with
  | 3%nat, T9 k1 a1 rho1 xsi1 b1 zeta1 =>
      T9 (scale n k1) (cscale n a1) (cscale n rho1) (scale n xsi1)
         (cscale n b1) (scale n zeta1)
  | 2%nat, T4 k1 a1 xsi1 => T4 (scale n k1) (cscale n a1) (scale n xsi1)
  | _, _ => T1 (scale n (first_of r))
  end.

(** The results [getmat] returns for the files of a run. *)
Definition read_all (p : nat) (fns : list file) (rs : list result) : Prop :=
  Forall2 (fun fn r => getmat fn (bands_of p) = Some r) fns rs.

(** The result of the last iteration. *)
Definition final (r0 : result) (rs : list result) : result :=
  foldl (fun _ r => r) r0 rs.

(** What the code has added up, in the order it adds. *)
Definition added (n : R) (rs : list result) (i : nat) : hermitian :=
  foldl hadd hzero (map (fun r => hscale n (at_pixel r i)) rs).

(** Elementwise difference, as the six [-=] of line 131 take it. *)
Definition hsub (x y : hermitian) : hermitian :=
  Herm (h_k x - h_k y) (Csub (h_a x) (h_a y)) (Csub (h_rho x) (h_rho y))
       (h_xsi x - h_xsi y) (Csub (h_b x) (h_b y)) (h_zeta x - h_zeta y).

(** The closed forms as the code writes them, with [abs(.)**2]. *)
Definition det_code (p : nat) (x : hermitian) : R :=
  match p with
  | 3%nat => det3 (h_k x) (h_xsi x) (h_zeta x) (h_a x) (h_b x) (h_rho x)
  | 2%nat => det2 (h_k x) (h_xsi x) (h_a x)
  | _ => h_k x
  end.

(** The determinant the code takes the first logarithm of. *)
Definition detsumj_used (n : R) (p : nat) (r : result) (rs : list result)
           (i : nat) : R :=
  match p with
  | 1%nat => det p (hsum (map (fun r => hscale n (at_pixel r i))
                              (removelast (r :: rs))))
  | _ => det p (hsum (map (fun r => hscale n (at_pixel r i)) (r :: rs)))
  end.

End EngineInvariants.

(* ===================================================================== *)
(** ** The numerical policy of [PV] on binary64 values *)
(* ===================================================================== *)

Module Clamping.
Local Open Scope float_scope.

(** [sys.float_info.min], the smallest positive normal double, which line
    107 binds to the name [eps]. *)
Definition eps : float := 0x1p-1022.

(** [sys.float_info.epsilon], the machine epsilon. *)
Definition machine_epsilon : float := 0x1p-52.

(** [sys.float_info.max] *)
Definition float_max : float := 0x1.fffffffffffffp+1023.

(** [np.nan_to_num] at one entry: NaN becomes 0, the infinities become the
    largest finite doubles. *)
Definition nan_to_num (x : float) : float :=
  if PrimFloat.is_nan x then 0
  else if PrimFloat.eqb x infinity then float_max
  else if PrimFloat.eqb x neg_infinity then - float_max
  else x.

(** [np.where(det <= eps, eps, det)] at one entry. *)
Definition where_le_eps (x : float) : float :=
  if PrimFloat.leb x eps then eps else x.

(** The argument of [np.log] in lines 146, 149 and 152. *)
Definition log_argument (det : float) : float := where_le_eps (nan_to_num det).

End Clamping.

(* ===================================================================== *)
(** ** The control flow of [main] *)
(* ===================================================================== *)

Module Driver.
Import Synth.
Local Open Scope string_scope.
Local Open Scope list_scope.

(** What the run does that can be observed from outside. *)
Inductive event :=
| Print (msg : string)
| Subset                          (* [subset(fns[0],dims)] *)
| Register (parallel : bool)      (* co-registration of the other images *)
| CallPV (i j : nat)              (* [PV(fns[i:j+2],...)], stored at [(i,j)] *)
| Create (suffix : string).       (* [driver.Create] and [WriteArray] *)

(** How the interpreter leaves [main]. *)
Inductive outcome :=
| Returned                        (* [return], or the end of [main] *)
| SysExit (code : Z).             (* [sys.exit(code)] *)

(** The exit status of the process. *)
Definition exit_status (o : outcome) : Z :=
  match o with
  | Returned => 0
  | SysExit code => code
  end.

(** What [main] finds in its arguments and in the first file. *)
Record invocation := Invocation {
  help : bool;            (* option -h *)
  nargs : nat;            (* len(args) *)
  k : nat;                (* number of file names in args[0] *)
  dims_given : bool;      (* option -d *)
  first_opens : bool;     (* gdal.Open(fns[0]) succeeds *)
  RasterCount : nat;      (* inDataset1.RasterCount *)
  engines : bool          (* an ipyparallel client is available *)
}.

Definition banner : list event :=
  [Print "==============================================="; 
   Print "     Multi-temporal SAR Change Detection";
   Print "==============================================="; 
   Print "time.asctime()"].

(** Lines 257-265. *)
Definition precalculate (k : nat) : list event :=
  flat_map (fun i =>
              flat_map (fun j => [Print "R(l,j)"; CallPV i j]) (range i (k - 1))
              ++ [Print ""])
           (range 0 (k - 1)).

(** Lines 245-334, once [p] is known. *)
Definition detect (k : nat) : list event :=
  [Print "First (reference) filename"; Print "number of images";
   Print "equivalent number of looks"; Print "significance level";
   Print "pre-calculating R and p-values ..."]
  ++ precalculate k
  ++ [Create "_cmap"; Print "most recent change map written to";
      Create "_fmap"; Print "frequency map written to";
      Create "_bmap"; Print "bitemporal map image written to";
      Create "_smap"; Print "first change map written to";
      Print "total elapsed time"].

(** Lines 216-234. *)
Definition coregister (inv : invocation) : list event :=
  if dims_given inv then
    [Subset; Print "Attempting parallel execution of co-registration ..."]
    ++ (if engines inv
        then [Print "available engines"; Register true]
        else [Print "Failed, so running sequential co-registration ...";
              Register false])
    ++ [Print "elapsed time for co-registration"]
  else [].

(** Lines 177-244 and what follows. *)
Definition main (inv : invocation) : list event * outcome :=
  if help inv then ([Print "usage"], Returned)
  else if negb (nargs inv =? 3)%nat then
    ([Print "Incorrect number of arguments"; Print "usage"], SysExit 1)
  else if negb (first_opens inv) then
    (banner ++ [Print "Error: -- Could not read file"], SysExit 1)
  else
    let before := banner ++ coregister inv in
    match RasterCount inv with
    | 9%nat | 4%nat | 1%nat => (before ++ detect (k inv), Returned)
    | _ => (before ++ [Print "incorrect number of bands"], Returned)
    end.

Definition is_computation (e : event) : bool :=
  match e with
  | CallPV _ _ | Create _ => true
  | _ => false
  end.

End Driver.

(* ===================================================================== *)
(** ** Sample rasters and stand-ins for the chi-square distribution *)
(* ===================================================================== *)

Module EngineSamples.
Import Engine.
Local Open Scope R_scope.

(** A single-band raster with the same value at every pixel. *)
Definition flat (c : R) : file := [fun _ => c].

(** A four-band raster (C11, Re C12, Im C12, C22), constant over pixels. *)
Definition flat4 (c11 re12 im12 c22 : R) : file :=
  [fun _ => c11; fun _ => re12; fun _ => im12; fun _ => c22].

(** Two functions with values in [0,1] that do not increase with the
    degrees of freedom. *)
Definition chi2_step (x df : R) : R := if Rle_dec df 1 then 1 else 0.
Definition chi2_half (x df : R) : R := 1 / 2.

End EngineSamples.

(* ===================================================================== *)
(** ** Sample p-value matrices, one pixel wide *)
(* ===================================================================== *)

Module Samples.
Import Synth.
Set Warnings "-inexact-float".
Local Open Scope float_scope.

(** The default significance level of [main]. *)
Definition significance : float := 0.01.

(** A far more permissive level. *)
Definition lenient : float := 0.6.

(** Three images; nothing significant from the first image on, a significant
    test between images 2 and 3 only. *)
Definition pv_late : pvarray :=
  fun ell j _ => match ell, j with 1%nat, 1%nat => 0.001 | _, _ => 0.5 end.

(** Four images; nothing significant in row 0, both tests of row 1
    significant. *)
Definition pv_late2 : pvarray :=
  fun ell j _ => match ell, j with
                 | 1%nat, 1%nat => 0.001
                 | 1%nat, 2%nat => 0.001
                 | _, _ => 0.5
                 end.

(** Three images; [R(1,2)] is weakly significant, [R(1,3)] strongly, the
    test restarted at image 2 is not. *)
Definition pv_shift : pvarray :=
  fun ell j _ => match ell, j with
                 | 0%nat, 0%nat => 0.5
                 | 0%nat, 1%nat => 0.005
                 | _, _ => 0.9
                 end.

(** 130 images; significant at [(0,127)] and [(128,128)] only. *)
Definition pv_130 : pvarray :=
  fun ell j _ => match ell, j with
                 | 0%nat, 127%nat => 0
                 | 128%nat, 128%nat => 0
                 | _, _ => 1
                 end.

(** 257 images; [(0,0)] strongly significant, [(1,255)] weakly. *)
Definition pv_257 : pvarray :=
  fun ell j _ => match ell, j with
                 | 0%nat, 0%nat => 0.001
                 | 1%nat, 255%nat => 0.5
                 | _, _ => 1
                 end.

(** 258 images; significant at [(0,255)] and [(0,256)] only. *)
Definition pv_258 : pvarray :=
  fun ell j _ => match ell, j with
                 | 0%nat, 255%nat => 0
                 | 0%nat, 256%nat => 0
                 | _, _ => 1
                 end.

End Samples.

(* ##################################################################### *)
(** * Properties *)
(* ##################################################################### *)

Module Int8Facts.
Import Int8.

Ltac mod_lia := Z.to_euclidean_division_equations; lia.

Lemma wrap8_range z : -128 <= wrap8 z <= 127.
Proof. unfold wrap8. mod_lia. Qed.

Lemma wrap8_small z : -128 <= z <= 127 -> wrap8 z = z.
Proof. unfold wrap8. mod_lia. Qed.

Lemma wrap8_le z : -128 <= z -> wrap8 z <= z.
Proof. unfold wrap8. mod_lia. Qed.

Lemma wrap8_succ_neq (ell j : nat) :
  (ell <= j)%nat -> (j < 255)%nat ->
  wrap8 (Z.of_nat j + 1) <> Z.of_nat ell.
Proof. unfold wrap8. mod_lia. Qed.

Lemma wrap8_succ_nonzero (j : nat) :
  (j < 255)%nat -> wrap8 (Z.of_nat j + 1) <> 0.
Proof. unfold wrap8. mod_lia. Qed.

Lemma to_uint8_wrap8 z : to_uint8 (wrap8 z) = z mod 256.
Proof. unfold to_uint8, wrap8. mod_lia. Qed.

End Int8Facts.

Module F64Facts.
Import F64.

Lemma cmp_pos_le e1 m1 e2 m2 :
  match (e1 ?= e2) with
  | Eq => PosDef.Pos.compare_cont Eq m1 m2
  | Lt => Lt
  | Gt => Gt
  end <> Gt <-> lex_le e1 m1 e2 m2.
Proof.
  unfold lex_le.
  change (PosDef.Pos.compare_cont Eq m1 m2) with (Pos.compare m1 m2).
  destruct (Z.compare_spec e1 e2); destruct (Pos.compare_spec m1 m2);
    split; intros; try lia; try congruence.
Qed.

Lemma cmp_neg_le e1 m1 e2 m2 :
  match (e1 ?= e2) with
  | Eq => CompOpp (PosDef.Pos.compare_cont Eq m1 m2)
  | Lt => Gt
  | Gt => Lt
  end <> Gt <-> lex_le e2 m2 e1 m1.
Proof.
  unfold lex_le.
  change (PosDef.Pos.compare_cont Eq m1 m2) with (Pos.compare m1 m2).
  destruct (Z.compare_spec e1 e2); destruct (Pos.compare_spec m1 m2);
    simpl; split; intros; try lia; try congruence.
Qed.

Lemma lex_le_trans e1 m1 e2 m2 e3 m3 :
  lex_le e1 m1 e2 m2 -> lex_le e2 m2 e3 m3 -> lex_le e1 m1 e3 m3.
Proof. unfold lex_le. lia. Qed.

Lemma SFleb_not_gt x y :
  SFleb x y = true <->
  exists c, SFcompare x y = Some c /\ c <> Gt.
Proof.
  unfold SFleb. destruct (SFcompare x y) as [[]|]; split;
    try (intros [c [E N]]; inversion E; subst); try congruence;
    intros; eexists; split; eauto; congruence.
Qed.

Lemma SFleb_trans x y z :
  SFleb x y = true -> SFleb y z = true -> SFleb x z = true.
Proof.
  rewrite !SFleb_not_gt.
  intros [c1 [E1 N1]] [c2 [E2 N2]].
  destruct x as [sx|sx| |sx mx ex], y as [sy|sy| |sy my ey],
           z as [sz|sz| |sz mz ez];
    simpl in *; try discriminate;
    repeat match goal with
           | H : Some _ = Some _ |- _ => inversion H; clear H; subst
           end;
    try (destruct sx; try destruct sy; try destruct sz;
         first [ congruence
               | eexists; split; [reflexivity | congruence] ]).
  destruct sx, sy, sz; try congruence;
    try (eexists; split; [reflexivity | congruence]).
  - eexists; split; [reflexivity|].
    apply cmp_neg_le. apply cmp_neg_le in N1, N2.
    eapply lex_le_trans; eauto.
  - eexists; split; [reflexivity|].
    apply cmp_pos_le. apply cmp_pos_le in N1, N2.
    eapply lex_le_trans; eauto.
Qed.

Lemma le_trans x y z : le x y = true -> le y z = true -> le x z = true.
Proof. unfold le. rewrite !leb_spec. apply SFleb_trans. Qed.

End F64Facts.

Module SynthFacts.
Import Int8 Int8Facts Synth SynthInvariants.

Lemma where_from_spec (mask : list bool) (s i : nat) :
  i ∈ where_from s mask <-> exists p, i = (s + p)%nat /\ mask !! p = Some true.
Proof.
  revert s. induction mask as [|b mask IH]; intros s; simpl.
  - split; [intros H; inversion H | intros [p [_ H]]; discriminate].
  - assert (Hrec : i ∈ where_from (S s) mask <->
                   exists p, i = (s + S p)%nat /\ mask !! p = Some true).
    { rewrite IH. split; intros [p [-> H]]; exists p; split; auto; lia. }
    destruct b.
    + rewrite elem_of_cons, Hrec. split.
      * intros [-> | [p [-> H]]]; [exists 0%nat | exists (S p)]; split; auto; lia.
      * intros [[|p] [-> H]]; [left; lia | right; exists p; auto].
    + rewrite Hrec. split.
      * intros [p [-> H]]. exists (S p). auto.
      * intros [[|p] [-> H]]; [discriminate | exists p; auto].
Qed.

Lemma np_where_spec (mask : list bool) (i : nat) :
  i ∈ np_where mask <-> mask !! i = Some true.
Proof.
  unfold np_where. rewrite where_from_spec. split.
  - intros [p [-> H]]. exact H.
  - intros H. exists i. auto.
Qed.

Lemma hit_mask_lookup sig pva ell j npix (cm : list Z) c i :
  length cm = npix -> (i < npix)%nat ->
  hit_mask sig (pv_slice pva ell j npix) cm c !! i
  = Some (F64.le (pva ell j i) sig && (cm !!! i =? c)).
Proof.
  intros Hlen Hi. unfold hit_mask, pv_slice.
  rewrite lookup_zip_with, !list_lookup_fmap.
  rewrite lookup_seq_lt by lia.
  rewrite (list_lookup_lookup_total_lt cm i) by lia.
  reflexivity.
Qed.

Lemma length_scatter {A} (g : nat -> A) idx (a : list A) :
  length (scatter g idx a) = length a.
Proof.
  unfold scatter. revert a. induction idx as [|i idx IH]; intros a; simpl; auto.
  rewrite IH. apply length_insert.
Qed.

Lemma scatter_lookup `{Inhabited A} (g : nat -> A) idx (a : list A) i :
  (i < length a)%nat ->
  scatter g idx a !!! i = if decide (i ∈ idx) then g i else a !!! i.
Proof.
  unfold scatter. revert a. induction idx as [|i0 idx IH]; intros a Hi; simpl.
  - destruct (decide (i ∈ [])) as [Hin|]; [inversion Hin | reflexivity].
  - rewrite IH by (rewrite length_insert; exact Hi).
    destruct (decide (i ∈ idx)) as [Hin|Hnin].
    + rewrite decide_True by (right; exact Hin). reflexivity.
    + destruct (decide (i = i0)) as [->|Hne].
      * rewrite decide_True by left.
        apply list_lookup_total_insert_eq. exact Hi.
      * rewrite decide_False by (rewrite elem_of_cons; tauto).
        apply list_lookup_total_insert_ne. congruence.
Qed.

Lemma synth_step_shaped sig pva npix ell j m :
  shaped npix m -> shaped npix (synth_step sig pva npix ell j m).
Proof.
  intros (Hc & Hs & Hf & Hb). unfold shaped, synth_step; simpl.
  rewrite !length_scatter. auto.
Qed.

Lemma synth_step_pixel sig pva npix ell j m i :
  shaped npix m -> (i < npix)%nat ->
  pixel_of (synth_step sig pva npix ell j m) i
  = pix_step sig (pvs_of pva i) ell j (pixel_of m i).
Proof.
  intros (Hc & Hs & Hf & Hb) Hi.
  unfold pixel_of, synth_step, pix_step, pix_hit, pix_first, pvs_of; simpl.
  rewrite !scatter_lookup by lia.
  assert (Hd : forall c,
    (if decide (i ∈ np_where (hit_mask sig (pv_slice pva ell j npix) (cmap m) c))
     then true else false) = F64.le (pva ell j i) sig && (cmap m !!! i =? c)).
  { intros c. destruct (decide _) as [Hin|Hnin].
    - apply np_where_spec in Hin.
      rewrite hit_mask_lookup in Hin by assumption. congruence.
    - rewrite np_where_spec, hit_mask_lookup in Hnin by assumption.
      destruct (F64.le _ _ && _); congruence. }
  pose proof (Hd (Z.of_nat ell)) as H1. pose proof (Hd 0) as H0.
  destruct (decide (i ∈ np_where (hit_mask _ _ _ (Z.of_nat ell))));
    destruct (decide (i ∈ np_where (hit_mask _ _ _ 0)));
    rewrite <- H1, <- H0; reflexivity.
Qed.

Lemma synth_row_pixel sig pva npix k ell m i :
  shaped npix m -> (i < npix)%nat ->
  shaped npix (synth_row sig pva npix k ell m) /\
  pixel_of (synth_row sig pva npix k ell m) i
  = pix_row sig (pvs_of pva i) k ell (pixel_of m i).
Proof.
  intros Hm Hi. unfold synth_row, pix_row.
  generalize (range ell (k - 1)) as js. intros js. revert m Hm.
  induction js as [|j js IH]; intros m Hm; simpl; [auto|].
  destruct (IH (synth_step sig pva npix ell j m)) as [Hs Hp].
  { apply synth_step_shaped, Hm. }
  split; [exact Hs|]. rewrite Hp, synth_step_pixel by assumption. reflexivity.
Qed.

Lemma zero_maps_shaped k npix : shaped npix (zero_maps k npix).
Proof. unfold shaped, zero_maps; simpl. rewrite !length_replicate. auto. Qed.

Lemma zero_maps_pixel k npix i :
  (i < npix)%nat -> pixel_of (zero_maps k npix) i = zero_pixel k.
Proof.
  intros Hi. unfold pixel_of, zero_maps, zero_pixel; simpl.
  rewrite !lookup_total_replicate_2 by lia. reflexivity.
Qed.

Lemma synth_rows_pixel sig pva npix k (ells : list nat) m i :
  shaped npix m -> (i < npix)%nat ->
  shaped npix (foldl (fun m ell => synth_row sig pva npix k ell m) m ells) /\
  pixel_of (foldl (fun m ell => synth_row sig pva npix k ell m) m ells) i
  = foldl (fun x ell => pix_row sig (pvs_of pva i) k ell x) (pixel_of m i) ells.
Proof.
  intros Hm Hi. revert m Hm.
  induction ells as [|ell ells IH]; intros m Hm; simpl; [auto|].
  destruct (synth_row_pixel sig pva npix k ell m i Hm Hi) as [Hs Hp].
  destruct (IH _ Hs) as [Hs' Hp']. split; [exact Hs'|].
  rewrite Hp', Hp. reflexivity.
Qed.

(** The array program does to every pixel what [pix_synth] does to one. *)
Lemma synth_pixel sig pva npix k i :
  (i < npix)%nat ->
  pixel_of (synth sig pva npix k) i = pix_synth sig (pvs_of pva i) k.
Proof.
  intros Hi. unfold synth, pix_synth.
  destruct (synth_rows_pixel sig pva npix k (range 0 (k - 1))
              (zero_maps k npix) i (zero_maps_shaped k npix) Hi) as [_ Hp].
  rewrite Hp, zero_maps_pixel by assumption. reflexivity.
Qed.

Lemma synth_shaped sig pva npix k : shaped npix (synth sig pva npix k).
Proof.
  unfold synth.
  assert (H : forall ells m, shaped npix m ->
    shaped npix (foldl (fun m ell => synth_row sig pva npix k ell m) m ells)).
  { induction ells as [|ell ells IH]; intros m Hm; simpl; auto.
    apply IH. unfold synth_row. generalize (range ell (k-1)). intros js.
    revert m Hm. induction js; intros m Hm; simpl; auto.
    apply IHjs, synth_step_shaped, Hm. }
  apply H, zero_maps_shaped.
Qed.
End SynthFacts.

Module PixelInv.
Import Int8 Int8Facts Synth SynthInvariants.

Lemma foldl_invariant {A B} (P : A -> Prop) (f : A -> B -> A) (l : list B) (a : A) :
  P a -> (forall a b, b ∈ l -> P a -> P (f a b)) -> P (foldl f a l).
Proof.
  revert a. induction l as [|b l IH]; intros a Ha Hstep; simpl; [exact Ha|].
  apply IH.
  - apply Hstep; [left | exact Ha].
  - intros a' b' Hb'. apply Hstep. right. exact Hb'.
Qed.

Lemma elem_of_range a b j : j ∈ range a b <-> (a <= j < b)%nat.
Proof. unfold range. rewrite elem_of_seq. lia. Qed.

Lemma existsb_marked_insert (row : list Z) (j : nat) (v : Z) :
  (j < length row)%nat -> marked v = true ->
  existsb marked (<[j := v]> row) = true.
Proof.
  revert j. induction row as [|a row IH]; intros j Hj Hv; simpl in *; [lia|].
  destruct j as [|j]; simpl.
  - rewrite Hv. reflexivity.
  - rewrite IH by (auto; lia). apply orb_true_r.
Qed.

Lemma existsb_marked_replicate n : existsb marked (replicate n 0) = false.
Proof. induction n; simpl; auto. Qed.

Lemma Done_zero k : Done (k - 1) 0 (zero_pixel k).
Proof.
  unfold Done, Base, zero_pixel; simpl.
  rewrite length_replicate, existsb_marked_replicate.
  repeat split; try lia; try congruence.
  vm_compute. congruence.
Qed.

Lemma Done_Inv K n x : Done K n x -> Inv K n x.
Proof.
  unfold Done, Inv. intros [Hbase Hb]. split; [exact Hbase|].
  destruct (pc x =? Z.of_nat n); lia.
Qed.

Lemma Inv_Done K n x : Inv K n x -> Done K (S n) x.
Proof.
  unfold Done, Inv. intros [Hbase Hb]. split; [exact Hbase|].
  destruct (pc x =? Z.of_nat n); lia.
Qed.

Lemma pix_step_Inv sig pv K ell j x :
  (ell <= j)%nat -> (j < K)%nat -> (K <= 255)%nat ->
  Inv K ell x -> Inv K ell (pix_step sig pv ell j x).
Proof.
  intros Hej HjK HK ((Hl & Hr & H0 & H1) & Hb).
  pose proof (wrap8_succ_neq ell j Hej ltac:(lia)) as Hne.
  pose proof (wrap8_succ_nonzero j ltac:(lia)) as Hnz.
  unfold Inv, Base, pix_step, pix_hit, pix_first.
  destruct (F64.le (pv ell j) sig); simpl; [|tauto].
  destruct (Z.eqb_spec (pc x) (Z.of_nat ell)) as [Hc|Hc];
    destruct (Z.eqb_spec (pc x) 0) as [Hz|Hz]; simpl.
  - (* first latch: ell = 0 *)
    destruct (H0 Hz) as [Hf _]. rewrite Hf in *.
    rewrite length_insert.
    destruct (Z.eqb_spec (wrap8 (Z.of_nat j + 1)) (Z.of_nat ell)); [contradiction|].
    repeat split; try (intros; contradiction); auto;
      try (apply existsb_marked_insert; [lia | reflexivity]);
      try (vm_compute; congruence); unfold to_uint8 in *; try lia.
    change (wrap8 (0 + 1)) with 1. change (1 `mod` 256) with 1. lia.
  - (* later latch *)
    destruct (H1 Hz) as (Hs & He & Hu).
    rewrite length_insert.
    destruct (Z.eqb_spec (wrap8 (Z.of_nat j + 1)) (Z.of_nat ell)); [contradiction|].
    pose proof (wrap8_range (pf x + 1)).
    assert (Hw : to_uint8 (wrap8 (pf x + 1)) = to_uint8 (pf x) + 1).
    { rewrite to_uint8_wrap8. unfold to_uint8 in *. mod_lia. }
    repeat split; try (intros; contradiction); auto; try lia;
      try (apply existsb_marked_insert; [lia | reflexivity]).
  - (* unlatched pixel met at ell > 0: only smap is written *)
    repeat split; try tauto; try lia; try (intros; contradiction).
    destruct (Z.eqb_spec (pc x) (Z.of_nat ell)); lia.
  - repeat split; try tauto; try lia.
    destruct (Z.eqb_spec (pc x) (Z.of_nat ell)); lia.
Qed.

Lemma pix_row_Inv sig pv k ell x :
  (k <= 256)%nat -> Inv (k - 1) ell x -> Inv (k - 1) ell (pix_row sig pv k ell x).
Proof.
  intros Hk Hx. unfold pix_row. apply foldl_invariant; [exact Hx|].
  intros a j Hj Ha. apply elem_of_range in Hj.
  apply pix_step_Inv; auto; lia.
Qed.

Lemma range_0_S n : range 0 (S n) = range 0 n ++ [n].
Proof. unfold range. rewrite !Nat.sub_0_r. apply seq_S. Qed.

Lemma pix_before_S sig pv k n :
  pix_before sig pv k (S n) = pix_row sig pv k n (pix_before sig pv k n).
Proof. unfold pix_before. rewrite range_0_S, foldl_snoc. reflexivity. Qed.

Lemma pix_before_Done sig pv k n :
  (k <= 256)%nat -> Done (k - 1) n (pix_before sig pv k n).
Proof.
  intros Hk. induction n as [|n IH].
  - apply Done_zero.
  - rewrite pix_before_S. apply Inv_Done, pix_row_Inv, Done_Inv; auto.
Qed.

Lemma pix_synth_before sig pv k :
  pix_synth sig pv k = pix_before sig pv k (k - 1).
Proof. reflexivity. Qed.

End PixelInv.
Module Increments.
Import Int8 Int8Facts Synth SynthInvariants PixelInv.

(** A pixel that is not latched on [ell] is not counted in row [ell], and
    stays unlatched on it. *)
Lemma row_increments_unlatched sig pv ell js x :
  pc x <> Z.of_nat ell -> row_increments sig pv ell js x = 0%nat.
Proof.
  revert x. induction js as [|j js IH]; intros x Hx; simpl; [reflexivity|].
  assert (Hh : pix_hit sig pv ell j x = false).
  { unfold pix_hit. destruct (Z.eqb_spec (pc x) (Z.of_nat ell)); [contradiction|].
    apply andb_false_r. }
  rewrite Hh. simpl. apply IH.
  unfold pix_step. rewrite Hh. simpl. exact Hx.
Qed.

Lemma row_increments_le_1 sig pv ell js x :
  Forall (fun j => ell <= j < 255)%nat js ->
  (row_increments sig pv ell js x <= 1)%nat.
Proof.
  intros Hjs. revert x. induction Hjs as [|j js Hj _ IH]; intros x; simpl; [lia|].
  destruct (pix_hit sig pv ell j x) eqn:Hh.
  - rewrite row_increments_unlatched; [lia|].
    unfold pix_step. rewrite Hh. simpl. apply wrap8_succ_neq; lia.
  - specialize (IH (pix_step sig pv ell j x)). lia.
Qed.

(** [row_increments] is the number of [+= 1] applied to the pixel's cell of
    [fmap] in the row. *)
Lemma row_increments_fmap sig pv ell js x :
  pf (foldl (fun x j => pix_step sig pv ell j x) x js)
  = Nat.iter (row_increments sig pv ell js x) (fun f => wrap8 (f + 1)) (pf x).
Proof.
  revert x. induction js as [|j js IH]; intros x; simpl; [reflexivity|].
  rewrite IH. unfold pix_step at 2.
  destruct (pix_hit sig pv ell j x); simpl; [|reflexivity].
  symmetry. apply (Nat.iter_succ_r _ (fun f => wrap8 (f + 1))).
Qed.

Lemma pix_step_fmap_range sig pv ell j x :
  -128 <= pf x <= 127 -> -128 <= pf (pix_step sig pv ell j x) <= 127.
Proof.
  intros Hx. unfold pix_step. destruct (pix_hit sig pv ell j x); simpl; [|exact Hx].
  apply wrap8_range.
Qed.

Lemma pix_synth_fmap_range sig pv k : -128 <= pf (pix_synth sig pv k) <= 127.
Proof.
  unfold pix_synth.
  apply (foldl_invariant (fun x => -128 <= pf x <= 127)); [simpl; lia|].
  intros x ell _ Hx. unfold pix_row.
  apply (foldl_invariant (fun x => -128 <= pf x <= 127)); [exact Hx|].
  intros y j _ Hy. apply pix_step_fmap_range, Hy.
Qed.

Lemma pix_synth_fmap_bound sig pv k :
  pf (pix_synth sig pv k) <= Z.of_nat (k - 1).
Proof.
  destruct (le_lt_dec k 256) as [Hk|Hk].
  - rewrite pix_synth_before.
    destruct (pix_before_Done sig pv k (k - 1) Hk) as [(_ & Hr & _) Hb].
    unfold to_uint8 in Hb. mod_lia.
  - pose proof (pix_synth_fmap_range sig pv k). lia.
Qed.
End Increments.

Module SynthTheorems.
Import Int8 Int8Facts Synth SynthInvariants SynthFacts PixelInv Increments Samples.

Lemma synth_before_pixel sig pva npix k ell i :
  (i < npix)%nat ->
  pixel_of (synth_before sig pva npix k ell) i = pix_before sig (pvs_of pva i) k ell.
Proof.
  intros Hi. unfold synth_before, pix_before.
  destruct (synth_rows_pixel sig pva npix k (range 0 ell)
              (zero_maps k npix) i (zero_maps_shaped k npix) Hi) as [_ Hp].
  rewrite Hp, zero_maps_pixel by assumption. reflexivity.
Qed.

(** *** Refinement of the specification's traversal (k <= 128) *)

Lemma pix_step_agrees sig pv K ell j x s :
  (ell <= j)%nat -> (j < K)%nat -> (K <= 127)%nat ->
  Inv K ell x -> agrees x s ->
  agrees (pix_step sig pv ell j x) (Spec.step sig pv ell j s).
Proof.
  intros Hej HjK HK ((Hl & Hr & H0 & H1) & Hb) (Hc & Hs & Hf & Hbm).
  unfold agrees, pix_step, pix_hit, pix_first, Spec.step.
  rewrite <- Hc, <- Hs, <- Hf, <- Hbm.
  assert (Hw : wrap8 (Z.of_nat j + 1) = Z.of_nat j + 1) by (apply wrap8_small; lia).
  destruct (F64.le (pv ell j) sig); simpl; [|tauto].
  destruct (Z.eqb_spec (pc x) (Z.of_nat ell)) as [He|He];
    destruct (Z.eqb_spec (pc x) 0) as [Hz|Hz]; simpl;
    repeat split; auto;
    try (rewrite list_fmap_insert; reflexivity);
    try (rewrite (proj1 (H0 Hz)); reflexivity);
    apply wrap8_small; unfold to_uint8 in Hb; mod_lia.
Qed.

Lemma foldl_invariant2 {A B C} (P : A -> B -> Prop) (f : A -> C -> A)
      (g : B -> C -> B) (l : list C) (a : A) (b : B) :
  P a b -> (forall a b c, c ∈ l -> P a b -> P (f a c) (g b c)) ->
  P (foldl f a l) (foldl g b l).
Proof.
  revert a b. induction l as [|c l IH]; intros a b Hab Hstep; simpl; [exact Hab|].
  apply IH.
  - apply Hstep; [left | exact Hab].
  - intros a' b' c' Hc'. apply Hstep. right. exact Hc'.
Qed.

Lemma pix_synth_agrees sig pv k :
  (k <= 128)%nat -> agrees (pix_synth sig pv k) (Spec.run sig pv k).
Proof.
  intros Hk. unfold pix_synth, Spec.run.
  enough (H : forall n,
    Done (k - 1) n (foldl (fun x l => pix_row sig pv k l x) (zero_pixel k) (range 0 n)) /\
    agrees (foldl (fun x l => pix_row sig pv k l x) (zero_pixel k) (range 0 n))
           (foldl (fun s ell => foldl (fun s j => Spec.step sig pv ell j s) s
                                      (range ell (k - 1)))
                  (Spec.State 0 0 0 (replicate (k - 1) 0)) (range 0 n)))
    by apply H.
  induction n as [|n [IHd IHa]].
  - split; [apply Done_zero|].
    unfold agrees, zero_pixel; simpl. rewrite fmap_replicate. auto.
  - rewrite range_0_S, !foldl_snoc. split.
    + apply Inv_Done, pix_row_Inv, Done_Inv; [lia|exact IHd].
    + apply Done_Inv in IHd. revert IHd IHa.
      generalize (foldl (fun x l => pix_row sig pv k l x) (zero_pixel k) (range 0 n)).
      generalize (foldl (fun s ell => foldl (fun s j => Spec.step sig pv ell j s) s
                                      (range ell (k - 1)))
                  (Spec.State 0 0 0 (replicate (k - 1) 0)) (range 0 n)).
      intros s x Hx Hxs. unfold pix_row.
      apply (foldl_invariant2 (fun x s => Inv (k - 1) n x /\ agrees x s)); [auto|].
      intros x' s' j Hj [Hx' Hxs']. apply elem_of_range in Hj. split.
      * apply pix_step_Inv; auto; lia.
      * apply pix_step_agrees with (K := (k - 1)%nat); auto; lia.
Qed.

(** C1 (as amended).  For a stack of at most 128 images the array program
    of lines 267-282 leaves, at every pixel, exactly what the traversal of
    section 4.4 computes on unbounded integers: same [cmap], [smap] and
    [fmap] cells, and a [bmap] row whose bytes, read unsigned, are the
    specification's 0 and 255. *)
Theorem synth_refines_spec (sig : float) (pva : pvarray) (npix k i : nat) :
  (k <= 128)%nat -> (i < npix)%nat ->
  let m := synth sig pva npix k in
  let s := Spec.run sig (pvs_of pva i) k in
  cmap m !!! i = Spec.s_cmap s /\
  smap m !!! i = Spec.s_smap s /\
  fmap m !!! i = Spec.s_fmap s /\
  to_uint8 <$> (bmap m !!! i) = Spec.s_bmap s.
Proof.
  intros Hk Hi m s.
  pose proof (synth_pixel sig pva npix k i Hi) as Hp.
  pose proof (pix_synth_agrees sig (pvs_of pva i) k Hk) as Ha.
  rewrite <- Hp in Ha. exact Ha.
Qed.

Lemma synth_refines_spec_witness :
  (3 <= 128)%nat /\ (0 < 1)%nat /\
  let m := synth significance pv_shift 1 3 in
  let s := Spec.run significance (pvs_of pv_shift 0) 3 in
  cmap m !!! 0%nat = Spec.s_cmap s /\
  smap m !!! 0%nat = Spec.s_smap s /\
  fmap m !!! 0%nat = Spec.s_fmap s /\
  to_uint8 <$> (bmap m !!! 0%nat) = Spec.s_bmap s.
Proof.
  split; [lia|]. split; [lia|].
  apply (synth_refines_spec significance pv_shift 1 3 0); lia.
Defined.

(** With 130 images the signed cells part from the specification: the
    change latched at boundary 128 is stored as -128, the test at
    [(128,128)] no longer finds the pixel, and one change is lost. Whatever
    [k], layer cells are stored as -1. *)
Lemma synth_departs_from_spec_130 :
  let m := synth significance pv_130 1 130 in
  let s := Spec.run significance (pvs_of pv_130 0) 130 in
  (cmap m !!! 0%nat = -128 /\ Spec.s_cmap s = 129) /\
  (fmap m !!! 0%nat = 1 /\ Spec.s_fmap s = 2) /\
  ((bmap m !!! 0%nat) !!! 127%nat = -1 /\ Spec.s_bmap s !!! 127%nat = 255).
Proof. vm_compute. repeat split; reflexivity. Qed.



(** *** At most one increment of [fmap] per outer index *)

(** C10 (as amended).  For a stack of at most 256 images, while the outer
    loop is at [ell] the cell of [fmap] of any pixel is incremented at most
    once, and at the end of the pass it holds at most [k - 1]. *)
Theorem fmap_once_per_ell (sig : float) (pva : pvarray) (npix k i ell : nat) :
  (k <= 256)%nat -> (i < npix)%nat -> (ell < k - 1)%nat ->
  (row_increments sig (pvs_of pva i) ell (range ell (k - 1))
     (pixel_of (synth_before sig pva npix k ell) i) <= 1)%nat /\
  fmap (synth sig pva npix k) !!! i <= Z.of_nat (k - 1).
Proof.
  intros Hk Hi Hell. split.
  - apply row_increments_le_1. apply Forall_forall. intros j Hj.
    apply elem_of_range in Hj. lia.
  - pose proof (synth_pixel sig pva npix k i Hi) as Hp.
    pose proof (pix_synth_fmap_bound sig (pvs_of pva i) k) as Hb.
    rewrite <- Hp in Hb. exact Hb.
Qed.

Lemma fmap_once_per_ell_witness :
  (3 <= 256)%nat /\ (0 < 1)%nat /\ (0 < 3 - 1)%nat /\
  (row_increments significance (pvs_of pv_shift 0) 0 (range 0 (3 - 1))
     (pixel_of (synth_before significance pv_shift 1 3 0) 0) <= 1)%nat /\
  fmap (synth significance pv_shift 1 3) !!! 0%nat <= Z.of_nat (3 - 1).
Proof.
  split; [lia|]. split; [lia|]. split; [lia|].
  apply (fmap_once_per_ell significance pv_shift 1 3 0 0); lia.
Defined.

(** With 258 images the latch value 256 is stored as 0: the pixel is still
    selected at [ell = 0] and is counted twice in that row. *)
Lemma fmap_twice_in_row_258 :
  ~ (row_increments significance (pvs_of pv_258 0) 0 (range 0 (258 - 1))
       (pixel_of (synth_before significance pv_258 1 258 0) 0) <= 1)%nat.
Proof.
  assert (H : row_increments significance (pvs_of pv_258 0) 0 (range 0 (258 - 1))
       (pixel_of (synth_before significance pv_258 1 258 0) 0) = 2%nat)
    by (vm_compute; reflexivity).
  rewrite H. lia.
Qed.

(** *** First-change map *)

(** C2, at the inputs where the code departs from it.  With [pv_late] no
    change is ever latched ([cmap], [fmap] and [bmap] stay zero) and still
    [smap] ends at 2; with [pv_late2] the cell of [smap] is written twice
    and keeps the later index 3. *)
Theorem smap_written_without_change :
  synth significance pv_late 1 3 = Maps [0] [2] [0] [[0; 0]] /\
  synth significance pv_late2 1 4 = Maps [0] [3] [0] [[0; 0; 0]] /\
  smap (synth_step significance pv_late2 1 1 1
          (synth_before significance pv_late2 1 4 1)) = [2].
Proof. vm_compute. repeat split; reflexivity. Qed.

(** *** Monotonicity in the significance level *)

Lemma pix_step_follows s1 s2 pv K ell j x1 x2 :
  F64.le s1 s2 = true ->
  (ell <= j)%nat -> (j < K)%nat -> (K <= 255)%nat ->
  Inv K ell x2 -> follows x1 x2 ->
  follows (pix_step s1 pv ell j x1) (pix_step s2 pv ell j x2).
Proof.
  intros Hs Hej HjK HK ((_ & _ & _ & H1) & _) [Hc Hsm].
  pose proof (wrap8_succ_nonzero j ltac:(lia)) as Hnz.
  assert (Hle : F64.le (pv ell j) s1 = true -> F64.le (pv ell j) s2 = true).
  { intros H. eapply F64Facts.le_trans; eauto. }
  unfold follows, pix_step, pix_hit, pix_first; simpl.
  destruct (F64.le (pv ell j) s1); [rewrite Hle by reflexivity|];
    destruct (F64.le (pv ell j) s2) eqn:E2; simpl;
    destruct (Z.eqb_spec (pc x1) (Z.of_nat ell));
    destruct (Z.eqb_spec (pc x1) 0);
    destruct (Z.eqb_spec (pc x2) (Z.of_nat ell));
    destruct (Z.eqb_spec (pc x2) 0);
    split; intros; try tauto; try lia;
    try (apply H1; assumption); try (apply Hsm; assumption).
Qed.

Lemma pix_synth_follows s1 s2 pv k :
  F64.le s1 s2 = true -> (k <= 256)%nat ->
  follows (pix_synth s1 pv k) (pix_synth s2 pv k).
Proof.
  intros Hs Hk. rewrite !pix_synth_before.
  enough (H : forall n, Done (k - 1) n (pix_before s2 pv k n) /\
              follows (pix_before s1 pv k n) (pix_before s2 pv k n)) by apply H.
  induction n as [|n [IHd IHf]].
  - split; [apply Done_zero|]. unfold follows; simpl. tauto.
  - rewrite !pix_before_S. split.
    + apply Inv_Done, pix_row_Inv, Done_Inv; auto.
    + apply Done_Inv in IHd. unfold pix_row.
      apply (foldl_invariant2 (fun x1 x2 => Inv (k - 1) n x2 /\ follows x1 x2));
        [auto|].
      intros x1 x2 j Hj [Hx2 Hf]. apply elem_of_range in Hj. split.
      * apply pix_step_Inv; auto; lia.
      * apply pix_step_follows with (K := (k - 1)%nat); auto; lia.
Qed.

(** Per pixel: what is marked at level [s1] is marked at level [s2]. *)
Lemma pix_synth_monotone s1 s2 pv k :
  F64.le s1 s2 = true -> (k <= 256)%nat ->
  let x1 := pix_synth s1 pv k in
  let x2 := pix_synth s2 pv k in
  (marked (pc x1) = true -> marked (pc x2) = true) /\
  (marked (ps x1) = true -> marked (ps x2) = true) /\
  (marked (pf x1) = true -> marked (pf x2) = true) /\
  (existsb marked (pb x1) = true -> existsb marked (pb x2) = true).
Proof.
  intros Hs Hk. cbv zeta.
  destruct (pix_synth_follows s1 s2 pv k Hs Hk) as [Hc Hsm].
  destruct (pix_before_Done s1 pv k (k - 1) Hk) as [(_ & Hr1 & H10 & H11) _].
  destruct (pix_before_Done s2 pv k (k - 1) Hk) as [(_ & Hr2 & H20 & H21) _].
  rewrite <- !pix_synth_before in *.
  revert Hc Hsm Hr1 H10 H11 Hr2 H20 H21.
  generalize (pix_synth s1 pv k) (pix_synth s2 pv k).
  intros x1 x2 Hc Hsm Hr1 H10 H11 Hr2 H20 H21.
  unfold marked. rewrite !negb_true_iff, !Z.eqb_neq.
  assert (Hf2 : pc x2 <> 0 -> pf x2 <> 0).
  { intros H. destruct (H21 H) as (_ & _ & Hu). unfold to_uint8 in Hu.
    intros E. rewrite E in Hu. change (0 `mod` 256) with 0 in Hu. lia. }
  repeat split; auto.
  - intros Hf. apply Hf2, Hc. intros E. destruct (H10 E). contradiction.
  - intros Hb. apply H21, Hc. intros E. destruct (H10 E) as [_ He].
    unfold marked in He. congruence.
Qed.

Lemma count_marked_mono (a b : list Z) :
  length a = length b ->
  (forall i, (i < length a)%nat -> marked (a !!! i) = true -> marked (b !!! i) = true) ->
  (count_marked a <= count_marked b)%nat.
Proof.
  unfold count_marked. revert b.
  induction a as [|v a IH]; intros [|w b] Hl H; simpl in *; try lia.
  specialize (IH b ltac:(lia) (fun i Hi => H (S i) ltac:(lia))).
  pose proof (H 0%nat ltac:(lia)) as H0. simpl in H0.
  rewrite !filter_cons.
  destruct (decide (marked v = true)); destruct (decide (marked w = true));
    simpl; try lia. tauto.
Qed.

Lemma any_layer_lookup (b : list (list Z)) i :
  (i < length b)%nat ->
  any_layer b !!! i = if existsb marked (b !!! i) then 1 else 0.
Proof.
  intros Hi. unfold any_layer. apply list_lookup_total_correct.
  rewrite list_lookup_fmap, (list_lookup_lookup_total_lt b i Hi). reflexivity.
Qed.


(** C7 (as amended).  For a stack of at most 256 images and significance
    levels [s1 <= s2], the number of pixels marked (non-zero) in [cmap], in
    [smap], in [fmap], and in at least one layer of [bmap] does not decrease
    from [s1] to [s2]. *)
Theorem marked_counts_monotone (s1 s2 : float) (pva : pvarray) (npix k : nat) :
  F64.le s1 s2 = true -> (k <= 256)%nat ->
  let m1 := synth s1 pva npix k in
  let m2 := synth s2 pva npix k in
  (count_marked (cmap m1) <= count_marked (cmap m2))%nat /\
  (count_marked (smap m1) <= count_marked (smap m2))%nat /\
  (count_marked (fmap m1) <= count_marked (fmap m2))%nat /\
  (count_marked (any_layer (bmap m1)) <= count_marked (any_layer (bmap m2)))%nat.
Proof.
  intros Hs Hk m1 m2.
  destruct (synth_shaped s1 pva npix k) as (Hc1 & Hs1 & Hf1 & Hb1).
  destruct (synth_shaped s2 pva npix k) as (Hc2 & Hs2 & Hf2 & Hb2).
  fold m1 in Hc1, Hs1, Hf1, Hb1. fold m2 in Hc2, Hs2, Hf2, Hb2.
  assert (Hpix : forall i, (i < npix)%nat ->
    (marked (cmap m1 !!! i) = true -> marked (cmap m2 !!! i) = true) /\
    (marked (smap m1 !!! i) = true -> marked (smap m2 !!! i) = true) /\
    (marked (fmap m1 !!! i) = true -> marked (fmap m2 !!! i) = true) /\
    (existsb marked (bmap m1 !!! i) = true -> existsb marked (bmap m2 !!! i) = true)).
  { intros i Hi.
    pose proof (pix_synth_monotone s1 s2 (pvs_of pva i) k Hs Hk) as H.
    cbv zeta in H.
    rewrite <- !(synth_pixel _ pva npix k i Hi) in H. exact H. }
  repeat split; apply count_marked_mono;
    first [ congruence
          | unfold any_layer; rewrite !length_map; congruence
          | intros i Hi ].
  - apply Hpix. lia.
  - apply Hpix. lia.
  - apply Hpix. lia.
  - unfold any_layer in Hi. rewrite length_map in Hi.
    rewrite !any_layer_lookup by lia.
    destruct (Hpix i ltac:(lia)) as (_ & _ & _ & Hb).
    destruct (existsb marked (bmap m1 !!! i)); [|discriminate].
    rewrite Hb by reflexivity. auto.
Qed.

Lemma marked_counts_monotone_witness :
  F64.le significance lenient = true /\ (3 <= 256)%nat /\
  let m1 := synth significance pv_shift 1 3 in
  let m2 := synth lenient pv_shift 1 3 in
  (count_marked (cmap m1) <= count_marked (cmap m2))%nat /\
  (count_marked (smap m1) <= count_marked (smap m2))%nat /\
  (count_marked (fmap m1) <= count_marked (fmap m2))%nat /\
  (count_marked (any_layer (bmap m1)) <= count_marked (any_layer (bmap m2)))%nat.
Proof.
  split; [reflexivity|]. split; [lia|].
  apply (marked_counts_monotone significance lenient pv_shift 1 3); [reflexivity | lia].
Defined.

(** Raising the level from 0.01 to 0.6 on [pv_shift] moves the pixel's only
    detection from boundary 2 to boundary 1: layer 1 of [bmap] loses its
    marked pixel.  On [pv_257] it adds a latch at boundary 256, stored as
    0: [cmap] loses its marked pixel. *)
Lemma marked_count_decreases :
  F64.le significance lenient = true /\
  (count_marked (layer (bmap (synth significance pv_shift 1 3)) 1) = 1 /\
   count_marked (layer (bmap (synth lenient pv_shift 1 3)) 1) = 0)%nat /\
  (count_marked (cmap (synth significance pv_257 1 257)) = 1 /\
   count_marked (cmap (synth lenient pv_257 1 257)) = 0)%nat.
Proof. vm_compute. repeat split; reflexivity. Qed.

(** *** Two images *)

(** C8.  With two images the populate loop writes the single entry
    [(0,0)] of the p-value matrix, and the synthesis pass leaves [cmap] and
    [smap] equal. *)
Theorem two_images_cmap_eq_smap {fname : Type} (PV : list fname -> Cache.raster)
        (median_filter : Cache.raster -> Cache.raster) (medianfilter : bool)
        (f0 f1 : fname) (sig : float) (npix : nat) :
  let st := Cache.populate PV median_filter medianfilter [f0; f1] in
  dom st = {[ (0%nat, 0%nat) ]} /\
  cmap (synth sig (Cache.read st) npix 2) = smap (synth sig (Cache.read st) npix 2).
Proof.
  intros st. split.
  - unfold st, Cache.populate.
    cbv [range length Nat.sub seq foldl Nat.add Cache.slice].
    rewrite dom_insert_L, dom_empty_L. set_solver.
  - reflexivity.
Qed.
End SynthTheorems.

Module EngineFacts.
Import Engine Engine.Spec EngineInvariants.
Local Open Scope R_scope.

(** *** Arrays of the heap, up to the value at each pixel *)

Lemma nd_eq_kind x y : nd_eq x y -> is_cplx x = is_cplx y.
Proof. destruct x, y; simpl; tauto. Qed.

Lemma nd_binop_eq fr fc x y z :
  nd_eq x y -> nd_eq (nd_binop fr fc x z) (nd_binop fr fc y z).
Proof.
  destruct x, y, z; simpl; try tauto; intros H i; rewrite H; reflexivity.
Qed.

Lemma alloc_holds x h :
  exists h', alloc x h = Some (PyRef (next h), h') /\
             next h' = S (next h) /\
             cells h' !! next h = Some x /\
             (forall l s, l <> next h -> holds h l s -> holds h' l s).
Proof.
  eexists. split; [reflexivity|]. simpl. split; [reflexivity|]. split.
  - apply lookup_insert_eq.
  - intros l s Hl [y [Hy He]]. exists y. split; [|exact He].
    simpl. rewrite lookup_insert_ne by congruence. exact Hy.
Qed.

Lemma inplace_first fr fc c x h :
  exists h', py_inplace fr fc (PyFloat c) x h = Some (PyRef (next h), h') /\
             next h' = S (next h) /\
             holds h' (next h) (nd_binop fr fc (scalar c) x) /\
             (forall l s, l <> next h -> holds h l s -> holds h' l s).
Proof.
  destruct (alloc_holds (nd_binop fr fc (scalar c) x) h) as (h' & E & Hn & Hl & Hf).
  exists h'. repeat split; auto.
  exists (nd_binop fr fc (scalar c) x). split; [exact Hl|].
  destruct x; simpl; reflexivity.
Qed.

Lemma inplace_ref fr fc l x s h :
  holds h l s -> is_cplx x && negb (is_cplx s) = false ->
  exists h', py_inplace fr fc (PyRef l) x h = Some (PyRef l, h') /\
             next h' = next h /\
             holds h' l (nd_binop fr fc s x) /\
             (forall l' s', l' <> l -> holds h l' s' -> holds h' l' s').
Proof.
  intros [y [Hy He]] Hk. unfold py_inplace. rewrite Hy.
  rewrite (nd_eq_kind _ _ He), Hk.
  eexists. split; [reflexivity|]. simpl. split; [reflexivity|]. split.
  - eexists. split; [simpl; apply lookup_insert_eq|]. apply nd_binop_eq, He.
  - intros l' s' Hl [z [Hz Hze]]. exists z. split; [|exact Hze].
    simpl. rewrite lookup_insert_ne by congruence. exact Hz.
Qed.

Lemma real_operand_holds h l u :
  holds h l (Real u) ->
  exists v, real_operand (PyRef l) h = Some (v, h) /\ forall i, v i = u i.
Proof.
  intros [x [Hx He]]. unfold real_operand, bind, deref. rewrite Hx.
  destruct x as [v|v]; simpl in He; [|contradiction].
  exists v. split; [reflexivity | exact He].
Qed.

Lemma cplx_operand_holds h l u :
  holds h l (Cplx u) ->
  exists v, cplx_operand (PyRef l) h = Some (v, h) /\ forall i, v i = u i.
Proof.
  intros [x [Hx He]]. unfold cplx_operand, bind, deref. rewrite Hx.
  destruct x as [v|v]; simpl in He; [contradiction|].
  exists v. split; [reflexivity | exact He].
Qed.

Lemma bind_Some {A B} (m : M A) (f : A -> M B) h x h' :
  m h = Some (x, h') -> bind m f h = f x h'.
Proof. intros E. unfold bind. rewrite E. reflexivity. Qed.



(** *** The accumulators after the loop *)


Lemma getmat_shape fn p r :
  (1 <= p <= 3)%nat -> getmat fn (bands_of p) = Some r ->
  match p, r with
  | 3%nat, T9 _ _ _ _ _ _ => True
  | 2%nat, T4 _ _ _ => True
  | 1%nat, T1 _ => True
  | _, _ => False
  end.
Proof.
  intros Hp. assert (Hc : p = 1%nat \/ p = 2%nat \/ p = 3%nat) by lia.
  destruct Hc as [-> | [-> | ->]]; simpl; unfold getmat;
    intros H; repeat (destruct (band fn _); simpl in H; try discriminate);
    inversion H; exact I.
Qed.

(** Uses [Hf] to carry every [holds h _ _] over to the next heap. *)
Ltac carry h Hf :=
  repeat match goal with
         | Hx : holds h ?l ?s |- _ =>
             first [ apply Hf in Hx; [| lia ] | clear Hx ]
         end.

Ltac inplace_next Hl :=
  match type of Hl with
  | holds ?h ?l ?s =>
      match goal with
      | |- context [bind (py_inplace ?fr ?fc (PyRef l) ?x) _ h] =>
          let h' := fresh "h" in
          let E := fresh "E" in
          let Hn := fresh "Hn" in
          let Hl' := fresh "Hl" in
          let Hf := fresh "Hf" in
          destruct (inplace_ref fr fc l x s h Hl eq_refl)
            as (h' & E & Hn & Hl' & Hf);
          rewrite (bind_Some _ _ _ _ _ E); cbv beta;
          carry h Hf; simpl nd_binop in Hl'
      end
  end.

Ltac inplace_new h :=
  match goal with
  | |- context [bind (py_inplace ?fr ?fc (PyFloat ?c) ?x) _ h] =>
      let h' := fresh "h" in
      let E := fresh "E" in
      let Hn := fresh "Hn" in
      let Hl' := fresh "Hl" in
      let Hf := fresh "Hf" in
      destruct (inplace_first fr fc c x h) as (h' & E & Hn & Hl' & Hf);
      rewrite (bind_Some _ _ _ _ _ E); cbv beta;
      carry h Hf; simpl nd_binop in Hl'
  end.

Lemma holds_ext h l s s' : nd_eq s s' -> holds h l s -> holds h l s'.
Proof.
  intros Hs [x [Hx He]]. exists x. split; [exact Hx|].
  destruct x, s, s'; simpl in *; try tauto; intros i; congruence.
Qed.

Lemma holds_loc h l l' s : l = l' -> holds h l s -> holds h l' s.
Proof. intros ->. auto. Qed.

(** First iteration: the accumulators are still Python floats. *)
Lemma accumulate_first n p fn r last h :
  (1 <= p <= 3)%nat -> getmat fn (bands_of p) = Some r ->
  exists h',
    accumulate n p (bands_of p)
      (Accs (PyFloat 0) (PyFloat 0) (PyFloat 0) (PyFloat 0) (PyFloat 0) (PyFloat 0),
       last) fn h
    = Some ((refs p (next h), Some (scaled n p r)), h') /\
    Held h' p (next h) (fun i => hadd hzero (hscale n (at_pixel r i))).
Proof.
  intros Hp Hg. pose proof (getmat_shape fn p r Hp Hg) as Hs.
  assert (Hc : p = 1%nat \/ p = 2%nat \/ p = 3%nat) by lia.
  unfold accumulate. rewrite Hg. unfold iadd.
  destruct Hc as [-> | [-> | ->]]; destruct r; try contradiction; simpl fst; cbv iota beta;
    simpl k; simpl a; simpl rho; simpl xsi; simpl b; simpl zeta.
  - inplace_new h. eexists. split; [reflexivity|]. simpl. split; [lia|].
    eapply holds_ext; [|exact Hl]. simpl. reflexivity.
  - inplace_new h. inplace_new h0. inplace_new h1.
    eexists. split.
    { unfold ret. rewrite Hn0, Hn. simpl.
      replace (S (next h)) with (next h + 1)%nat by lia.
      replace (S (next h + 1)) with (next h + 2)%nat by lia. reflexivity. }
    simpl. repeat split; try lia.
    + eapply holds_ext; [|exact Hl]. simpl. reflexivity.
    + eapply holds_loc; [|eapply holds_ext; [|exact Hl0]]; [lia|]. simpl. reflexivity.
    + eapply holds_loc; [|eapply holds_ext; [|exact Hl1]]; [lia|]. simpl. reflexivity.
  - inplace_new h. inplace_new h0. inplace_new h1.
    inplace_new h2. inplace_new h3. inplace_new h4.
    eexists. split.
    { unfold ret. rewrite Hn3, Hn2, Hn1, Hn0, Hn. simpl.
      replace (S (next h)) with (next h + 1)%nat by lia.
      replace (S (next h + 1)) with (next h + 2)%nat by lia.
      replace (S (next h + 2)) with (next h + 3)%nat by lia.
      replace (S (next h + 3)) with (next h + 4)%nat by lia.
      replace (S (next h + 4)) with (next h + 5)%nat by lia.
      reflexivity. }
    simpl. repeat split; try lia.
    + eapply holds_ext; [|exact Hl]. simpl. reflexivity.
    + eapply holds_loc; [|eapply holds_ext; [|exact Hl0]]; [lia|]. simpl. reflexivity.
    + eapply holds_loc; [|eapply holds_ext; [|exact Hl1]]; [lia|]. simpl. reflexivity.
    + eapply holds_loc; [|eapply holds_ext; [|exact Hl2]]; [lia|]. simpl. reflexivity.
    + eapply holds_loc; [|eapply holds_ext; [|exact Hl3]]; [lia|]. simpl. reflexivity.
    + eapply holds_loc; [|eapply holds_ext; [|exact Hl4]]; [lia|]. simpl. reflexivity.
Qed.


(** Later iterations update the arrays in place. *)
Lemma accumulate_next n p fn r last h l0 X :
  (1 <= p <= 3)%nat -> getmat fn (bands_of p) = Some r ->
  Held h p l0 X ->
  exists h',
    accumulate n p (bands_of p) (refs p l0, last) fn h
    = Some ((refs p l0, Some (scaled n p r)), h') /\
    Held h' p l0 (fun i => hadd (X i) (hscale n (at_pixel r i))).
Proof.
  intros Hp Hg HX. pose proof (getmat_shape fn p r Hp Hg) as Hs.
  assert (Hc : p = 1%nat \/ p = 2%nat \/ p = 3%nat) by lia.
  unfold accumulate. rewrite Hg. unfold iadd.
  destruct Hc as [-> | [-> | ->]]; destruct r; try contradiction; simpl fst; cbv iota beta;
    simpl k; simpl a; simpl rho; simpl xsi; simpl b; simpl zeta; simpl in HX.
  - destruct HX as (Hnx & Hk).
    inplace_next Hk.
    eexists. split; [reflexivity|]. simpl. split; [lia|].
    eapply holds_ext; [|exact Hl]. simpl. reflexivity.
  - destruct HX as (Hnx & Hk & Ha & Hxsi).
    inplace_next Hk. inplace_next Ha. inplace_next Hxsi.
    eexists. split; [reflexivity|]. simpl. repeat split; try lia.
    + eapply holds_ext; [|exact Hl]. simpl. reflexivity.
    + eapply holds_ext; [|exact Hl0]. simpl. reflexivity.
    + eapply holds_ext; [|exact Hl1]. simpl. reflexivity.
  - destruct HX as (Hnx & Hk & Ha & Hrho & Hxsi & Hb & Hzeta).
    inplace_next Hk. inplace_next Ha. inplace_next Hrho.
    inplace_next Hxsi. inplace_next Hb. inplace_next Hzeta.
    eexists. split; [reflexivity|]. simpl. repeat split; try lia.
    + eapply holds_ext; [|exact Hl]. simpl. reflexivity.
    + eapply holds_ext; [|exact Hl0]. simpl. reflexivity.
    + eapply holds_ext; [|exact Hl1]. simpl. reflexivity.
    + eapply holds_ext; [|exact Hl2]. simpl. reflexivity.
    + eapply holds_ext; [|exact Hl3]. simpl. reflexivity.
    + eapply holds_ext; [|exact Hl4]. simpl. reflexivity.
Qed.

Lemma accumulate_rest n p fns rs r0 h l0 X :
  (1 <= p <= 3)%nat -> read_all p fns rs -> Held h p l0 X ->
  exists h',
    accumulate_all n p (bands_of p) fns (refs p l0, Some (scaled n p r0)) h
    = Some ((refs p l0, Some (scaled n p (final r0 rs))), h') /\
    Held h' p l0
      (fun i => foldl hadd (X i) (map (fun r => hscale n (at_pixel r i)) rs)).
Proof.
  intros Hp Hrs. revert r0 h X.
  induction Hrs as [|fn r fns rs Hg _ IH]; intros r0 h X HX.
  - exists h. split; [reflexivity | exact HX].
  - destruct (accumulate_next n p fn r (Some (scaled n p r0)) h l0 X Hp Hg HX)
      as (h1 & E1 & H1).
    destruct (IH r h1 _ H1) as (h2 & E2 & H2).
    exists h2. split; [|exact H2].
    cbn [accumulate_all]. rewrite (bind_Some _ _ _ _ _ E1). exact E2.
Qed.

(** Lines 108-128 on a run of at least one file. *)
Lemma accumulate_all_spec n p fn fns r rs h :
  (1 <= p <= 3)%nat -> read_all p (fn :: fns) (r :: rs) ->
  exists h',
    accumulate_all n p (bands_of p) (fn :: fns)
      (Accs (PyFloat 0) (PyFloat 0) (PyFloat 0) (PyFloat 0) (PyFloat 0) (PyFloat 0),
       None) h
    = Some ((refs p (next h), Some (scaled n p (final r rs))), h') /\
    Held h' p (next h) (added n (r :: rs)).
Proof.
  intros Hp Hrs. inversion Hrs as [|? ? ? ? Hg Hrest]; subst.
  destruct (accumulate_first n p fn r None h Hp Hg) as (h1 & E1 & H1).
  destruct (accumulate_rest n p fns rs r h1 (next h) _ Hp Hrest H1) as (h2 & E2 & H2).
  exists h2. split; [|exact H2].
  cbn [accumulate_all]. rewrite (bind_Some _ _ _ _ _ E1). exact E2.
Qed.


(** *** The three determinants *)

Ltac read_real Hl :=
  match type of Hl with
  | holds ?h ?l (Real ?u) =>
      let v := fresh "v" in
      let E := fresh "E" in
      let Hv := fresh "Hv" in
      destruct (real_operand_holds h l u Hl) as (v & E & Hv);
      rewrite (bind_Some _ _ _ _ _ E); cbv beta
  end.

Ltac read_cplx Hl :=
  match type of Hl with
  | holds ?h ?l (Cplx ?u) =>
      let v := fresh "v" in
      let E := fresh "E" in
      let Hv := fresh "Hv" in
      destruct (cplx_operand_holds h l u Hl) as (v & E & Hv);
      rewrite (bind_Some _ _ _ _ _ E); cbv beta
  end.

Ltac alloc_next h :=
  match goal with
  | |- context [bind (alloc ?x) _ h] =>
      let h' := fresh "h" in
      let E := fresh "E" in
      let Hn := fresh "Hn" in
      let Hc := fresh "Hc" in
      let Hf := fresh "Hf" in
      destruct (alloc_holds x h) as (h' & E & Hn & Hc & Hf);
      rewrite (bind_Some _ _ _ _ _ E); cbv beta;
      carry h Hf
  end.

Lemma holds_cell h l x s : cells h !! l = Some x -> nd_eq x s -> holds h l s.
Proof. intros H E. exists x. auto. Qed.

Lemma det2_now_spec h l0 X (rho0 b0 zeta0 : pyval) :
  holds h l0 (Real (fun i => h_k (X i))) ->
  holds h (l0 + 1) (Cplx (fun i => h_a (X i))) ->
  holds h (l0 + 2) (Real (fun i => h_xsi (X i))) ->
  exists h',
    det2_now (Accs (PyRef l0) (PyRef (l0 + 1)) rho0 (PyRef (l0 + 2)) b0 zeta0) h
    = Some (PyRef (next h), h') /\
    next h' = S (next h) /\
    holds h' (next h) (Real (fun i => det_code 2 (X i))) /\
    (forall l s, l <> next h -> holds h l s -> holds h' l s).
Proof.
  intros Hk Ha Hxsi. unfold det2_now. simpl k; simpl a; simpl xsi.
  read_real Hk. read_real Hxsi. read_cplx Ha.
  destruct (alloc_holds (Real (fun i => det2 (v i) (v0 i) (v1 i))) h)
    as (h' & Ealloc & Hn & Hc & Hf).
  exists h'. repeat split; auto.
  eapply holds_cell; [exact Hc|]. simpl. intros i.
  rewrite Hv, Hv0, Hv1. reflexivity.
Qed.

Lemma det3_now_spec h l0 X :
  holds h l0 (Real (fun i => h_k (X i))) ->
  holds h (l0 + 1) (Cplx (fun i => h_a (X i))) ->
  holds h (l0 + 2) (Cplx (fun i => h_rho (X i))) ->
  holds h (l0 + 3) (Real (fun i => h_xsi (X i))) ->
  holds h (l0 + 4) (Cplx (fun i => h_b (X i))) ->
  holds h (l0 + 5) (Real (fun i => h_zeta (X i))) ->
  exists h',
    det3_now (refs 3 l0) h = Some (PyRef (next h), h') /\
    next h' = S (next h) /\
    holds h' (next h) (Real (fun i => det_code 3 (X i))) /\
    (forall l s, l <> next h -> holds h l s -> holds h' l s).
Proof.
  intros Hk Ha Hrho Hxsi Hb Hzeta. unfold det3_now, refs.
  simpl k; simpl a; simpl xsi; simpl rho; simpl b; simpl zeta.
  read_real Hk. read_real Hxsi. read_real Hzeta.
  read_cplx Ha. read_cplx Hb. read_cplx Hrho.
  destruct (alloc_holds
              (Real (fun i => det3 (v i) (v0 i) (v1 i) (v2 i) (v3 i) (v4 i))) h)
    as (h' & Ealloc & Hn & Hc & Hf).
  exists h'. repeat split; auto.
  eapply holds_cell; [exact Hc|]. simpl. intros i.
  rewrite Hv, Hv0, Hv1, Hv2, Hv3, Hv4. reflexivity.
Qed.

(** Lines 129-143.  For [p = 2] and [p = 3] the three names are bound to
    three arrays; for [p = 1] [detsumj] and [detsumj1] are bound to the
    array of [k], which by then holds the sum without its last term. *)
Lemma determinants_spec n p rl h l0 X :
  (1 <= p <= 3)%nat ->
  match p, rl with
  | 3%nat, T9 _ _ _ _ _ _ | 2%nat, T4 _ _ _ | 1%nat, T1 _ => True
  | _, _ => False
  end ->
  Held h p l0 X ->
  let L := fun i => hscale n (at_pixel rl i) in
  exists ld ld1 ldj h' D,
    determinants p (refs p l0, Some (scaled n p rl)) h
    = Some ((PyRef ld, PyRef ld1, PyRef ldj), h') /\
    holds h' ld (Real D) /\
    holds h' ld1 (Real (fun i => det_code p (hsub (X i) (L i)))) /\
    holds h' ldj (Real (fun i => det_code p (L i))) /\
    (p <> 1%nat -> forall i, D i = det_code p (X i)) /\
    (p = 1%nat -> ld = ld1).
Proof.
  intros Hp Hs HX L.
  assert (Hc : p = 1%nat \/ p = 2%nat \/ p = 3%nat) by lia.
  unfold determinants, isub.
  destruct Hc as [-> | [-> | ->]]; destruct rl; try contradiction;
    cbn [fst snd scaled first_of refs k a rho xsi b zeta]; simpl in HX.
  - destruct HX as (Hnx & Hk). simpl k.
    inplace_next Hk. alloc_next h0.
    exists l0, l0, (next h0), h1. eexists.
    split; [reflexivity|].
    split; [exact Hl|].
    split; [eapply holds_ext; [|exact Hl]; simpl; reflexivity|].
    split; [eapply holds_cell; [exact Hc|]; simpl; reflexivity|].
    split; [intros H; congruence | reflexivity].
  - destruct HX as (Hnx & Hk & Ha & Hxsi).
    destruct (det2_now_spec h l0 X (PyFloat 0) (PyFloat 0) (PyFloat 0) Hk Ha Hxsi)
      as (h0 & E0 & Hn0 & Hd & Hf0).
    rewrite (bind_Some _ _ _ _ _ E0); cbv beta. carry h Hf0.
    simpl k; simpl a; simpl xsi; simpl rho; simpl b; simpl zeta.
    inplace_next Hk. inplace_next Ha. inplace_next Hxsi.
    destruct (det2_now_spec h3 l0 (fun i => hsub (X i) (L i))
                (PyFloat 0) (PyFloat 0) (PyFloat 0)) as (h4 & E4 & Hn4 & Hd1 & Hf4).
    { eapply holds_ext; [|exact Hl]. simpl. reflexivity. }
    { eapply holds_ext; [|exact Hl0]. simpl. reflexivity. }
    { eapply holds_ext; [|exact Hl1]. simpl. reflexivity. }
    rewrite (bind_Some _ _ _ _ _ E4); cbv beta. carry h3 Hf4.
    alloc_next h4.
    exists (next h), (next h3), (next h4), h5. eexists.
    split; [reflexivity|].
    split; [exact Hd|].
    split; [exact Hd1|].
    split; [eapply holds_cell; [exact Hc|]; simpl; reflexivity|].
    split; [reflexivity | discriminate].
  - destruct HX as (Hnx & Hk & Ha & Hrho & Hxsi & Hb & Hzeta).
    destruct (det3_now_spec h l0 X Hk Ha Hrho Hxsi Hb Hzeta)
      as (h0 & E0 & Hn0 & Hd & Hf0).
    rewrite (bind_Some _ _ _ _ _ E0); cbv beta. carry h Hf0.
    unfold refs. simpl k; simpl a; simpl xsi; simpl rho; simpl b; simpl zeta.
    inplace_next Hk. inplace_next Ha. inplace_next Hrho.
    inplace_next Hxsi. inplace_next Hb. inplace_next Hzeta.
    destruct (det3_now_spec h6 l0 (fun i => hsub (X i) (L i)))
      as (h7 & E7 & Hn7 & Hd1 & Hf7).
    { eapply holds_ext; [|exact Hl]. simpl. reflexivity. }
    { eapply holds_ext; [|exact Hl0]. simpl. reflexivity. }
    { eapply holds_ext; [|exact Hl1]. simpl. reflexivity. }
    { eapply holds_ext; [|exact Hl2]. simpl. reflexivity. }
    { eapply holds_ext; [|exact Hl3]. simpl. reflexivity. }
    { eapply holds_ext; [|exact Hl4]. simpl. reflexivity. }
    unfold refs in E7. rewrite (bind_Some _ _ _ _ _ E7); cbv beta. carry h6 Hf7.
    alloc_next h7.
    exists (next h), (next h6), (next h7), h8. eexists.
    split; [reflexivity|].
    split; [exact Hd|].
    split; [exact Hd1|].
    split; [eapply holds_cell; [exact Hc|]; simpl; reflexivity|].
    split; [reflexivity | discriminate].
Qed.


(** *** Algebra of the sums and determinants *)

Lemma Cabs_sq z : Cabs z ^ 2 = norm2 z.
Proof.
  unfold Cabs, norm2. simpl. rewrite Rmult_1_r.
  apply sqrt_sqrt. nra.
Qed.

Lemma det_code_spec p x : (1 <= p <= 3)%nat -> det_code p x = det p x.
Proof.
  intros Hp. destruct p as [|[|[|[|p]]]]; try lia; try reflexivity;
    unfold det_code, det, det2, det3; rewrite !Cabs_sq; reflexivity.
Qed.

Lemma complex_eq x y : re x = re y -> im x = im y -> x = y.
Proof. destruct x, y; simpl; intros -> ->; reflexivity. Qed.

Lemma herm_eq x y :
  h_k x = h_k y -> h_a x = h_a y -> h_rho x = h_rho y ->
  h_xsi x = h_xsi y -> h_b x = h_b y -> h_zeta x = h_zeta y -> x = y.
Proof. destruct x, y; simpl; intros -> -> -> -> -> ->; reflexivity. Qed.

Ltac herm :=
  apply herm_eq; simpl; try apply complex_eq; simpl; try ring.

Lemma hadd_assoc x y z : hadd (hadd x y) z = hadd x (hadd y z).
Proof. herm. Qed.

Lemma hadd_zero_l x : hadd hzero x = x.
Proof. herm. Qed.

Lemma hadd_zero_r x : hadd x hzero = x.
Proof. herm. Qed.

Lemma hsub_hadd x y : hsub (hadd x y) y = x.
Proof. herm. Qed.

Lemma hscale_zero n : hscale n hzero = hzero.
Proof. herm. Qed.

Lemma hscale_hadd n x y : hscale n (hadd x y) = hadd (hscale n x) (hscale n y).
Proof. herm. Qed.

Lemma foldl_hadd a xs : foldl hadd a xs = hadd a (hsum xs).
Proof.
  revert a. induction xs as [|x xs IH]; intros a; simpl.
  - symmetry. apply hadd_zero_r.
  - rewrite IH. apply hadd_assoc.
Qed.

Lemma added_hsum n rs i :
  added n rs i = hsum (map (fun r => hscale n (at_pixel r i)) rs).
Proof. unfold added. rewrite foldl_hadd. apply hadd_zero_l. Qed.

Lemma hsum_app xs ys : hsum (xs ++ ys) = hadd (hsum xs) (hsum ys).
Proof.
  induction xs as [|x xs IH]; simpl.
  - symmetry. apply hadd_zero_l.
  - rewrite IH. symmetry. apply hadd_assoc.
Qed.

Lemma hsum_scaled n (xs : list hermitian) :
  hsum (map (hscale n) xs) = hscale n (hsum xs).
Proof.
  induction xs as [|x xs IH]; simpl.
  - symmetry. apply hscale_zero.
  - rewrite IH. symmetry. apply hscale_hadd.
Qed.

Lemma split_final (r : result) rs :
  r :: rs = removelast (r :: rs) ++ [final r rs].
Proof.
  revert r. induction rs as [|r' rs IH]; intros r; [reflexivity|].
  change (final r (r' :: rs)) with (final r' rs).
  change (removelast (r :: r' :: rs)) with (r :: removelast (r' :: rs)).
  rewrite <- app_comm_cons. f_equal. apply IH.
Qed.

(** Subtracting the last scaled matrix from the running sum leaves the sum
    of the scaled matrices before it. *)
Lemma added_minus_last n r rs i :
  hsub (added n (r :: rs) i) (hscale n (at_pixel (final r rs) i))
  = hsum (map (fun r => hscale n (at_pixel r i)) (removelast (r :: rs))).
Proof.
  rewrite added_hsum. rewrite (split_final r rs) at 1.
  rewrite map_app, hsum_app. simpl hsum. rewrite hadd_zero_r.
  apply hsub_hadd.
Qed.

Lemma final_read p fn fns r rs :
  read_all p (fn :: fns) (r :: rs) ->
  exists fn', getmat fn' (bands_of p) = Some (final r rs).
Proof.
  revert fn fns r. induction rs as [|r' rs IH]; intros fn fns r Hrs;
    inversion Hrs as [|? ? ? ? Hg Hrest]; subst.
  - exists fn. exact Hg.
  - inversion Hrest as [|fn' ? fns' ? Hg' Hrest']; subst.
    change (final r (r' :: rs)) with (final r' rs).
    apply (IH fn' fns' r'). exact Hrest.
Qed.

(** *** The logarithms and the statistic *)

Lemma logdet_holds h l u :
  holds h l (Real u) ->
  exists v, logdet (PyRef l) h = Some (v, h) /\
            forall i, v i = ln (clamp (u i)).
Proof.
  intros Hl. unfold logdet.
  destruct (real_operand_holds h l u Hl) as (d & E & Hd).
  rewrite (bind_Some _ _ _ _ _ E). eexists. split; [reflexivity|].
  intros i. simpl. unfold nan_to_num. rewrite Hd. reflexivity.
Qed.

Lemma lnRj_raster_spec n p fn fns r rs h :
  (1 <= p <= 3)%nat -> read_all p (fn :: fns) (r :: rs) ->
  exists lnRj h',
    lnRj_raster (fn :: fns) n p (bands_of p) h = Some (lnRj, h') /\
    forall i,
      lnRj i =
      lnRj_of n p (INR (length (fn :: fns)))
        (ln (clamp (detsumj_used n p r rs i)))
        (ln (clamp (det p (hsum (map (fun r => hscale n (at_pixel r i))
                                     (removelast (r :: rs)))))))
        (ln (clamp (det p (hscale n (at_pixel (final r rs) i))))).
Proof.
  intros Hp Hrs.
  destruct (accumulate_all_spec n p fn fns r rs h Hp Hrs) as (h1 & E1 & H1).
  assert (Hshape : match p, final r rs with
                   | 3%nat, T9 _ _ _ _ _ _ | 2%nat, T4 _ _ _ | 1%nat, T1 _ => True
                   | _, _ => False
                   end).
  { destruct (final_read p fn fns r rs Hrs) as [fn' Hg].
    pose proof (getmat_shape fn' p _ Hp Hg) as Hs.
    destruct p as [|[|[|[|p]]]]; try lia; destruct (final r rs); tauto. }
  destruct (determinants_spec n p (final r rs) h1 (next h) _ Hp Hshape H1)
    as (ld & ld1 & ldj & h2 & D & E2 & Hd & Hd1 & Hdj & HD & Halias).
  destruct (logdet_holds _ _ _ Hd) as (v & Ev & Hv).
  destruct (logdet_holds _ _ _ Hd1) as (v1 & Ev1 & Hv1).
  destruct (logdet_holds _ _ _ Hdj) as (vj & Evj & Hvj).
  unfold lnRj_raster.
  rewrite (bind_Some _ _ _ _ _ E1), (bind_Some _ _ _ _ _ E2).
  cbv beta iota.
  rewrite (bind_Some _ _ _ _ _ Ev), (bind_Some _ _ _ _ _ Ev1),
          (bind_Some _ _ _ _ _ Evj).
  eexists. eexists. split; [reflexivity|].
  intros i. cbv beta. rewrite Hv1, Hvj, !det_code_spec, added_minus_last by exact Hp.
  f_equal. rewrite Hv. f_equal. f_equal.
  unfold detsumj_used.
  destruct (Nat.eq_dec p 1%nat) as [-> | Hne].
  - (* [detsumj] and [detsumj1] are one array *)
    specialize (Halias eq_refl). subst ld1.
    destruct Hd as (x & Hx & Hxe). destruct Hd1 as (x1 & Hx1 & Hxe1).
    rewrite Hx in Hx1. inversion Hx1; subst x1.
    destruct x as [u|u]; cbn [nd_eq] in Hxe, Hxe1; [|contradiction].
    rewrite <- Hxe, Hxe1, det_code_spec, added_minus_last by lia. reflexivity.
  - rewrite (HD Hne), det_code_spec, added_hsum by exact Hp.
    destruct p as [|[|[|[|p]]]]; try lia; reflexivity.
Qed.

Import EngineSamples.

Lemma eps_pos : 0 < eps.
Proof. unfold eps. apply Rinv_0_lt_compat, pow_lt. lra. Qed.

Lemma eps_lt_1 : eps < 1.
Proof.
  unfold eps. rewrite <- Rinv_1. apply Rinv_lt_contravar.
  - rewrite Rmult_1_l. apply pow_lt. lra.
  - apply Rlt_pow_R1; [lra | lia].
Qed.

Lemma clamp_ge_1 x : 1 <= x -> clamp x = x.
Proof.
  intros Hx. unfold clamp. pose proof eps_lt_1.
  destruct (Rle_dec x eps); [lra | reflexivity].
Qed.

Lemma removelast_map {A B} (f : A -> B) (l : list A) :
  removelast (map f l) = map f (removelast l).
Proof.
  induction l as [|x [|y l] IH]; try reflexivity.
  change (removelast (map f (x :: y :: l)))
    with (f x :: removelast (map f (y :: l))).
  rewrite IH. reflexivity.
Qed.

Lemma last_map_final n (r : result) rs i :
  List.last (map (fun r => hscale n (at_pixel r i)) (r :: rs)) hzero
  = hscale n (at_pixel (final r rs) i).
Proof.
  revert r. induction rs as [|r' rs IH]; intros r; [reflexivity|].
  change (final r (r' :: rs)) with (final r' rs). rewrite <- IH. reflexivity.
Qed.

Lemma omega2j_spec n p j : omega2j_of n p j = omega2 n p j.
Proof.
  unfold omega2j_of, omega2, rhoj_of, rho_, Rdiv.
  simpl pow. rewrite !Rmult_1_r, !Rinv_mult. ring.
Qed.

Lemma pvalue_spec chi2_cdf n p j x : pvalue chi2_cdf n p j x = pv chi2_cdf n p j x.
Proof.
  unfold pvalue, pv. rewrite omega2j_spec. reflexivity.
Qed.

(** For the dimensions 2 and 3 [PV] computes the statistic and the p-value
    of section 4.2. *)
Lemma PV_spec_p23 chi2_cdf n p fn fns r rs h :
  (2 <= p <= 3)%nat -> read_all p (fn :: fns) (r :: rs) ->
  exists pvs h',
    PV chi2_cdf (fn :: fns) n p (bands_of p) h = Some (pvs, h') /\
    forall i,
      pvs i = pv chi2_cdf n p (INR (length (r :: rs))) (lnR_of_run n p (r :: rs) i).
Proof.
  intros Hp Hrs.
  destruct (lnRj_raster_spec n p fn fns r rs h ltac:(lia) Hrs) as (lnRj & h' & E & Hl).
  unfold PV. rewrite (bind_Some _ _ _ _ _ E).
  eexists. eexists. split; [reflexivity|].
  intros i. cbv beta. rewrite pvalue_spec, Hl.
  assert (Hlen : length (fn :: fns) = length (r :: rs)) by (eapply Forall2_length; eauto).
  rewrite Hlen. f_equal.
  unfold lnR_of_run, lnRj_of, lnR.
  rewrite removelast_map, last_map_final.
  unfold detsumj_used.
  destruct p as [|[|[|[|p]]]]; try lia; reflexivity.
Qed.

(** C5.  For a run of at least one matrix and [p] in 1..3, the value the
    code binds to [detsumj1] - the closed-form determinant of the running
    sums after the in-place subtraction of the last scaled matrix - is the
    determinant of the sum of the scaled matrices before the last, which
    is also that of [n] times the sum of those matrices. *)
Theorem subtraction_is_recomputation (n : R) (p : nat) (fn : file)
        (fns : list file) (r : result) (rs : list result) (h : heap) :
  (1 <= p <= 3)%nat -> read_all p (fn :: fns) (r :: rs) ->
  exists st h1 detsumj detsumj1 detj h2 D1,
    accumulate_all n p (bands_of p) (fn :: fns)
      (Accs (PyFloat 0) (PyFloat 0) (PyFloat 0) (PyFloat 0) (PyFloat 0) (PyFloat 0),
       None) h = Some (st, h1) /\
    determinants p st h1 = Some ((detsumj, detsumj1, detj), h2) /\
    real_operand detsumj1 h2 = Some (D1, h2) /\
    forall i,
      D1 i = det p (hsum (map (fun r => hscale n (at_pixel r i))
                              (removelast (r :: rs)))) /\
      D1 i = det p (hscale n (hsum (map (fun r => at_pixel r i)
                                        (removelast (r :: rs))))).
Proof.
  intros Hp Hrs.
  destruct (accumulate_all_spec n p fn fns r rs h Hp Hrs) as (h1 & E1 & H1).
  assert (Hshape : match p, final r rs with
                   | 3%nat, T9 _ _ _ _ _ _ | 2%nat, T4 _ _ _ | 1%nat, T1 _ => True
                   | _, _ => False
                   end).
  { destruct (final_read p fn fns r rs Hrs) as [fn' Hg].
    pose proof (getmat_shape fn' p _ Hp Hg) as Hs.
    destruct p as [|[|[|[|p]]]]; try lia; destruct (final r rs); tauto. }
  destruct (determinants_spec n p (final r rs) h1 (next h) _ Hp Hshape H1)
    as (ld & ld1 & ldj & h2 & D & E2 & Hd & Hd1 & Hdj & HD & Halias).
  destruct (real_operand_holds _ _ _ Hd1) as (D1 & E3 & HD1).
  exists (refs p (next h), Some (scaled n p (final r rs))), h1,
         (PyRef ld), (PyRef ld1), (PyRef ldj), h2, D1.
  split; [exact E1|]. split; [exact E2|]. split; [exact E3|].
  intros i. rewrite HD1, det_code_spec, added_minus_last by exact Hp.
  split; [reflexivity|].
  rewrite <- hsum_scaled, map_map. reflexivity.
Qed.

Lemma subtraction_is_recomputation_witness :
  (1 <= 2 <= 3)%nat /\
  read_all 2 [flat4 2 1 0 3; flat4 4 0 1 5]
           [T4 (fun _ => 2) (mkcplx (fun _ => 1) (fun _ => 0)) (fun _ => 3);
            T4 (fun _ => 4) (mkcplx (fun _ => 0) (fun _ => 1)) (fun _ => 5)] /\
  exists st h1 detsumj detsumj1 detj h2 D1,
    accumulate_all 10 2 (bands_of 2) [flat4 2 1 0 3; flat4 4 0 1 5]
      (Accs (PyFloat 0) (PyFloat 0) (PyFloat 0) (PyFloat 0) (PyFloat 0) (PyFloat 0),
       None) empty_heap = Some (st, h1) /\
    determinants 2 st h1 = Some ((detsumj, detsumj1, detj), h2) /\
    real_operand detsumj1 h2 = Some (D1, h2) /\
    forall i,
      D1 i = det 2 (hsum (map (fun r => hscale 10 (at_pixel r i))
                (removelast
                   [T4 (fun _ => 2) (mkcplx (fun _ => 1) (fun _ => 0)) (fun _ => 3);
                    T4 (fun _ => 4) (mkcplx (fun _ => 0) (fun _ => 1)) (fun _ => 5)]))) /\
      D1 i = det 2 (hscale 10 (hsum (map (fun r => at_pixel r i)
                (removelast
                   [T4 (fun _ => 2) (mkcplx (fun _ => 1) (fun _ => 0)) (fun _ => 3);
                    T4 (fun _ => 4) (mkcplx (fun _ => 0) (fun _ => 1)) (fun _ => 5)])))).
Proof.
  split; [lia|].
  split; [repeat constructor|].
  apply (subtraction_is_recomputation 10 2); [lia | repeat constructor].
Defined.


(** *** The single-band branch *)

Lemma ln_4_pos : 0 < ln 4.
Proof. rewrite <- ln_1. apply ln_increasing; lra. Qed.

(** C3, at an input where the code departs from it: two single-band
    images, 1 everywhere and 3 everywhere, one look.  [detsumj = k] binds
    [detsumj] to the accumulator itself, [k -= k1] then changes that array,
    and the first logarithm is taken of the sum without its last term (1)
    instead of the full sum (4). *)
Theorem lnRj_single_band_aliased :
  exists lnRj h',
    lnRj_raster [flat 1; flat 3] 1 1 1 empty_heap = Some (lnRj, h') /\
    forall i,
      lnRj i = 2 * ln 2 + ln 3 /\
      lnR_of_run 1 1 [T1 (fun _ => 1); T1 (fun _ => 3)] i
      = 2 * ln 2 + ln 3 - 2 * ln 4 /\
      lnRj i <> lnR_of_run 1 1 [T1 (fun _ => 1); T1 (fun _ => 3)] i.
Proof.
  destruct (lnRj_raster_spec 1 1 (flat 1) [flat 3]
              (T1 (fun _ => 1)) [T1 (fun _ => 3)] empty_heap)
    as (lnRj & h' & E & Hl); [lia | repeat constructor |].
  exists lnRj, h'. split; [exact E|]. intros i.
  assert (Hcode : lnRj i = 2 * ln 2 + ln 3).
  { rewrite Hl. unfold lnRj_of, detsumj_used. simpl.
    replace (1 * 1 + 0) with 1 by ring. replace (1 * 3) with 3 by ring.
    replace (1 + 1 - 1) with 1 by ring. replace (1 + 1) with 2 by ring.
    rewrite !clamp_ge_1 by lra. rewrite ln_1. ring. }
  assert (Hspec : lnR_of_run 1 1 [T1 (fun _ => 1); T1 (fun _ => 3)] i
                  = 2 * ln 2 + ln 3 - 2 * ln 4).
  { unfold lnR_of_run, lnR. simpl.
    replace (1 * 1 + (1 * 3 + 0)) with 4 by ring.
    replace (1 * 1 + 0) with 1 by ring. replace (1 * 3) with 3 by ring.
    replace (1 + 1 - 1) with 1 by ring. replace (1 + 1) with 2 by ring.
    rewrite !clamp_ge_1 by lra. rewrite ln_1. ring. }
  split; [exact Hcode|]. split; [exact Hspec|].
  rewrite Hcode, Hspec. pose proof ln_4_pos. lra.
Qed.

(** *** Range of the p-values *)

Lemma PV_returns chi2_cdf n p fn fns r rs h :
  (1 <= p <= 3)%nat -> read_all p (fn :: fns) (r :: rs) ->
  exists pvs h' lnRj,
    PV chi2_cdf (fn :: fns) n p (bands_of p) h = Some (pvs, h') /\
    forall i, pvs i = pvalue chi2_cdf n p (INR (length (fn :: fns))) (lnRj i).
Proof.
  intros Hp Hrs.
  destruct (lnRj_raster_spec n p fn fns r rs h Hp Hrs) as (lnRj & h' & E & _).
  unfold PV. rewrite (bind_Some _ _ _ _ _ E).
  eexists. exists h', lnRj. split; reflexivity.
Qed.

(** C4 (as amended).  When the weight [omega2j] lies in [0,1] and
    [chi2_cdf] takes its values in [0,1], [PV] returns a raster whose
    values all lie in [0,1]. *)
Theorem PV_in_unit_interval (chi2_cdf : R -> R -> R) (n : R) (p : nat)
        (fn : file) (fns : list file) (r : result) (rs : list result) (h : heap) :
  (1 <= p <= 3)%nat -> read_all p (fn :: fns) (r :: rs) ->
  (forall x df, 0 <= chi2_cdf x df <= 1) ->
  0 <= omega2j_of n p (INR (length (fn :: fns))) <= 1 ->
  exists pvs h',
    PV chi2_cdf (fn :: fns) n p (bands_of p) h = Some (pvs, h') /\
    forall i, 0 <= pvs i <= 1.
Proof.
  intros Hp Hrs Hchi Hw.
  destruct (PV_returns chi2_cdf n p fn fns r rs h Hp Hrs) as (pvs & h' & lnRj & E & Hpv).
  exists pvs, h'. split; [exact E|]. intros i. rewrite Hpv. unfold pvalue.
  set (w := omega2j_of n p (INR (length (fn :: fns)))) in *.
  pose proof (Hchi (-2 * rhoj_of n p (INR (length (fn :: fns))) * lnRj i) (f_of p)) as H1.
  pose proof (Hchi (-2 * rhoj_of n p (INR (length (fn :: fns))) * lnRj i) (f_of p + 4)) as H2.
  cbv zeta. fold w. nra.
Qed.

Lemma PV_in_unit_interval_witness :
  (1 <= 2 <= 3)%nat /\
  read_all 2 [flat4 2 1 0 3; flat4 4 0 1 5]
           [T4 (fun _ => 2) (mkcplx (fun _ => 1) (fun _ => 0)) (fun _ => 3);
            T4 (fun _ => 4) (mkcplx (fun _ => 0) (fun _ => 1)) (fun _ => 5)] /\
  (forall x df, 0 <= chi2_half x df <= 1) /\
  0 <= omega2j_of 10 2 (INR (length [flat4 2 1 0 3; flat4 4 0 1 5])) <= 1 /\
  exists pvs h',
    PV chi2_half [flat4 2 1 0 3; flat4 4 0 1 5] 10 2 (bands_of 2) empty_heap
    = Some (pvs, h') /\
    forall i, 0 <= pvs i <= 1.
Proof.
  assert (Hw : omega2j_of 10 2 (INR (length [flat4 2 1 0 3; flat4 4 0 1 5])) = 7 / 5329).
  { unfold omega2j_of, rhoj_of. simpl INR. field. }
  assert (Hchi : forall x df, 0 <= chi2_half x df <= 1).
  { intros x df. unfold chi2_half. lra. }
  split; [lia|]. split; [repeat constructor|]. split; [exact Hchi|].
  split; [rewrite Hw; lra|].
  apply (PV_in_unit_interval chi2_half 10 2 _ _
           (T4 (fun _ => 2) (mkcplx (fun _ => 1) (fun _ => 0)) (fun _ => 3))
           [T4 (fun _ => 4) (mkcplx (fun _ => 0) (fun _ => 1)) (fun _ => 5)]);
    [lia | repeat constructor | exact Hchi | rewrite Hw; lra].
Defined.

(** For single-band images the weight is never positive ... *)
Lemma omega2j_single_band n j : omega2j_of n 1 j <= 0.
Proof.
  unfold omega2j_of. simpl INR.
  set (t := 1 - 1 / rhoj_of n 1 j).
  replace (1 * 1 - 1) with 0 by ring.
  unfold Rdiv. rewrite !Rmult_0_r, !Rmult_0_l, Rplus_0_r.
  assert (0 <= t ^ 2) by (simpl; nra). nra.
Qed.

(** ... and then the two assumptions of the claim bound the p-value by
    [omega2j] from below and 1 from above, not by 0. *)
Lemma PV_range_nonpositive_weight chi2_cdf n p lnRj j :
  (forall x df, 0 <= chi2_cdf x df <= 1) ->
  (forall x df df', df <= df' -> chi2_cdf x df' <= chi2_cdf x df) ->
  omega2j_of n p j <= 0 ->
  omega2j_of n p j <= pvalue chi2_cdf n p j lnRj <= 1.
Proof.
  intros Hchi Hmono Hw. unfold pvalue. cbv zeta.
  set (w := omega2j_of n p j) in *.
  set (Z := -2 * rhoj_of n p j * lnRj).
  pose proof (Hchi Z (f_of p)) as H1.
  pose proof (Hchi Z (f_of p + 4)) as H2.
  pose proof (Hmono Z (f_of p) (f_of p + 4) ltac:(lra)) as H3.
  nra.
Qed.

(** With a function that satisfies both assumptions of the claim, one look
    and two single-band images, the value returned is -1/36. *)
Lemma PV_negative :
  (forall x df, 0 <= chi2_step x df <= 1) /\
  (forall x df df', df <= df' -> chi2_step x df' <= chi2_step x df) /\
  exists pvs h',
    PV chi2_step [flat 1; flat 3] 1 1 1 empty_heap = Some (pvs, h') /\
    forall i, pvs i = - 1 / 36 /\ ~ (0 <= pvs i <= 1).
Proof.
  split; [|split].
  - intros x df. unfold chi2_step. destruct (Rle_dec df 1); lra.
  - intros x df df' Hle. unfold chi2_step.
    destruct (Rle_dec df 1), (Rle_dec df' 1); lra.
  - destruct (PV_returns chi2_step 1 1 (flat 1) [flat 3]
                (T1 (fun _ => 1)) [T1 (fun _ => 3)] empty_heap)
      as (pvs & h' & lnRj & E & Hpv); [lia | repeat constructor |].
    exists pvs, h'. split; [exact E|]. intros i.
    assert (Hv : pvs i = - 1 / 36).
    { rewrite Hpv. unfold pvalue, f_of, chi2_step. cbv zeta. simpl INR.
      destruct (Rle_dec (1 ^ 2) 1) as [_|Hn]; [|exfalso; apply Hn; simpl; lra].
      destruct (Rle_dec (1 ^ 2 + 4) 1) as [Hy|_]; [exfalso; simpl in Hy; lra|].
      unfold omega2j_of, rhoj_of. simpl INR. field. }
    split; [exact Hv|]. rewrite Hv. lra.
Qed.
End EngineFacts.

Module ClampingFacts.
Import Clamping.
Local Open Scope float_scope.

Lemma eps_SF : Prim2SF eps = S754_finite false 4503599627370496 (-1074).
Proof. reflexivity. Qed.

Lemma compare_cont_refl m : PosDef.Pos.compare_cont Eq m m = Eq.
Proof. change (Pos.compare m m = Eq). apply Pos.compare_refl. Qed.

Lemma is_nan_SF x : PrimFloat.is_nan x = false -> Prim2SF x <> S754_nan.
Proof.
  unfold PrimFloat.is_nan. rewrite FloatAxioms.eqb_spec. intros H E.
  rewrite E in H. discriminate.
Qed.

Lemma not_infinity_SF x :
  PrimFloat.eqb x infinity = false -> Prim2SF x <> S754_infinity false.
Proof.
  rewrite FloatAxioms.eqb_spec. intros H E. rewrite E in H.
  change (Prim2SF infinity) with (S754_infinity false) in H. discriminate.
Qed.

Lemma SFleb_total_pos m e m' e' :
  SFleb (S754_finite false m e) (S754_finite false m' e') = false ->
  SFleb (S754_finite false m' e') (S754_finite false m e) = true.
Proof.
  unfold SFleb, SFcompare.
  change (PosDef.Pos.compare_cont Eq m m') with (Pos.compare m m').
  change (PosDef.Pos.compare_cont Eq m' m) with (Pos.compare m' m).
  rewrite (Z.compare_antisym e e'), (Pos.compare_antisym m m').
  destruct (Z.compare e e'); cbn [CompOpp]; try congruence.
  destruct (Pos.compare m m'); cbn [CompOpp]; congruence.
Qed.

(** An entry that is neither NaN nor plus infinity leaves the clamp
    strictly positive, finite and at least [eps]. *)
Lemma where_le_eps_ordinary x :
  PrimFloat.is_nan x = false -> PrimFloat.eqb x infinity = false ->
  PrimFloat.leb eps (where_le_eps x) = true /\
  PrimFloat.ltb 0 (where_le_eps x) = true /\
  PrimFloat.ltb (where_le_eps x) infinity = true.
Proof.
  intros Hnan Hinf. apply is_nan_SF in Hnan. apply not_infinity_SF in Hinf.
  unfold where_le_eps. destruct (PrimFloat.leb x eps) eqn:Hle.
  - repeat split; reflexivity.
  - rewrite FloatAxioms.leb_spec in Hle.
    rewrite FloatAxioms.leb_spec, !FloatAxioms.ltb_spec.
    rewrite eps_SF in *.
    change (Prim2SF 0) with (S754_zero false).
    change (Prim2SF infinity) with (S754_infinity false).
    destruct (Prim2SF x) as [s|s| |s m e]; try congruence.
    + destruct s; discriminate.
    + destruct s; [discriminate | congruence].
    + destruct s; [discriminate|].
      split; [apply SFleb_total_pos; exact Hle|].
      split; reflexivity.
Qed.

(** C6 (as amended).  Whatever the determinant - NaN, infinite, zero or
    negative included - the code replaces NaN by 0, every entry at most
    [sys.float_info.min] (the [eps] of line 107) by [sys.float_info.min],
    and so hands [np.log] an argument that is finite, strictly positive
    and at least [sys.float_info.min]. *)
Theorem log_argument_positive (det : float) :
  (PrimFloat.is_nan det = true -> nan_to_num det = 0) /\
  (PrimFloat.leb (nan_to_num det) eps = true -> log_argument det = eps) /\
  PrimFloat.leb eps (log_argument det) = true /\
  PrimFloat.ltb 0 (log_argument det) = true /\
  PrimFloat.ltb (log_argument det) infinity = true.
Proof.
  split; [|split].
  - intros H. unfold nan_to_num. rewrite H. reflexivity.
  - intros H. unfold log_argument, where_le_eps. rewrite H. reflexivity.
  - unfold log_argument, nan_to_num.
    destruct (PrimFloat.is_nan det) eqn:Hnan; [repeat split; reflexivity|].
    destruct (PrimFloat.eqb det infinity) eqn:Hinf; [repeat split; reflexivity|].
    destruct (PrimFloat.eqb det neg_infinity) eqn:Hninf; [repeat split; reflexivity|].
    apply where_le_eps_ordinary; assumption.
Qed.

Lemma log_argument_positive_witness :
  PrimFloat.is_nan nan = true /\ nan_to_num nan = 0 /\
  PrimFloat.leb (nan_to_num 0) eps = true /\ log_argument 0 = eps.
Proof.
  split; [reflexivity|].
  split; [apply (proj1 (log_argument_positive nan)); reflexivity|].
  split; [reflexivity|].
  apply (proj1 (proj2 (log_argument_positive 0))); reflexivity.
Defined.

(** An entry such as 2^-100 is far below the machine epsilon and is left
    as it is; zero is replaced by 2^-1022, not by the machine epsilon. *)
Lemma not_clamped_to_machine_epsilon :
  PrimFloat.leb 0x1p-100 machine_epsilon = true /\
  log_argument 0x1p-100 = 0x1p-100 /\
  PrimFloat.eqb (log_argument 0x1p-100) machine_epsilon = false /\
  log_argument 0 = 0x1p-1022 /\
  PrimFloat.eqb (log_argument 0) machine_epsilon = false.
Proof. repeat split; reflexivity. Qed.

End ClampingFacts.

Module DriverFacts.
Import Driver.

Lemma supported_bands n :
  n <> 1%nat -> n <> 4%nat -> n <> 9%nat ->
  match n with
  | 9%nat | 4%nat | 1%nat => False
  | _ => True
  end.
Proof.
  intros H1 H4 H9.
  do 10 (destruct n as [|n]; try exact I; try congruence).
Qed.

Lemma existsb_app {A} (f : A -> bool) (l1 l2 : list A) :
  existsb f (l1 ++ l2) = existsb f l1 || existsb f l2.
Proof. apply List.existsb_app. Qed.

Lemma coregister_no_computation inv :
  existsb is_computation (coregister inv) = false.
Proof.
  unfold coregister. destruct (dims_given inv), (engines inv); reflexivity.
Qed.

(** The path the claim C9 is about, for every unsupported band count: the
    message is printed, no p-value is computed and no raster is created,
    and [main] returns - the process ends with status 0. *)
Lemma main_unsupported_bands inv :
  help inv = false -> nargs inv = 3%nat -> first_opens inv = true ->
  RasterCount inv <> 1%nat -> RasterCount inv <> 4%nat ->
  RasterCount inv <> 9%nat ->
  let (trace, out) := main inv in
  List.last trace (Print "") = Print "incorrect number of bands" /\
  existsb is_computation trace = false /\
  out = Returned /\ exit_status out = 0%Z.
Proof.
  intros Hh Hn Ho H1 H4 H9. unfold main. rewrite Hh, Hn, Ho. simpl.
  pose proof (supported_bands (RasterCount inv) H1 H4 H9) as Hb.
  assert (Hgoal :
    List.last ((banner ++ coregister inv) ++ [Print "incorrect number of bands"])
              (Print "") = Print "incorrect number of bands" /\
    existsb is_computation
      ((banner ++ coregister inv) ++ [Print "incorrect number of bands"]) = false /\
    Returned = Returned /\ exit_status Returned = 0%Z).
  { rewrite List.last_last, !existsb_app, coregister_no_computation.
    repeat split; reflexivity. }
  destruct (RasterCount inv) as [|[|[|[|[|[|[|[|[|[|n]]]]]]]]]];
    try contradiction; exact Hgoal.
Qed.

(** C9, at an input where the code departs from it: a first image with two
    bands.  The message is printed and nothing is computed or written, but
    [main] leaves through [return] and the exit status is 0, where the
    other fatal errors leave through [sys.exit(1)]. *)
Theorem two_bands_exit_status_zero :
  let inv := Invocation false 3 3 false true 2 false in
  main inv
  = (banner ++ [Print "incorrect number of bands"], Returned) /\
  exit_status (snd (main inv)) = 0%Z /\
  existsb is_computation (fst (main inv)) = false /\
  exit_status (snd (main (Invocation false 2 3 false true 2 false))) = 1%Z /\
  exit_status (snd (main (Invocation false 3 3 false false 2 false))) = 1%Z.
Proof. repeat split; reflexivity. Qed.

End DriverFacts.
